(** * Foot measurement from a reference coin: a model of [hwaelMain.cpp]

    The program is one [main] that chains calls of an image library and
    contributes two selection loops and the scale arithmetic.  The model
    keeps that shape:

    - the library's image operators are constructors of a term type [Mat],
      so that a value of type [Mat] records which operators produced it and
      in which order;
    - the library's detectors (contours, polygons, bounding boxes, circles)
      are the fields of a record [Library], an interface that [main] is
      parameterised by;
    - [int] is [Z] with two's complement wrap-around, [float] is IEEE-754
      binary32 through [SpecFloat] at precision 24;
    - [main] is written with one binding per assignment, and the console and
      the windows are an event list. *)

From Stdlib Require Import ZArith List String Ascii Bool Lia QArith Permutation.
From Stdlib Require Import Floats.SpecFloat.
Import ListNotations.

Local Open Scope Z_scope.

(** ** Machine numbers *)

Module Int.

Definition INT_MIN : Z := -2147483648.
Definition INT_MAX : Z := 2147483647.

Definition in_range (z : Z) : bool := (INT_MIN <=? z) && (z <=? INT_MAX).

(** Two's complement reduction to 32 bits. *)
Definition wrap (z : Z) : Z := (z + 2147483648) mod 4294967296 - 2147483648.

Definition add (a b : Z) : Z := wrap (a + b).
Definition mul (a b : Z) : Z := wrap (a * b).
(** [a / b] on [int] truncates toward zero. *)
Definition div (a b : Z) : Z := wrap (Z.quot a b).

End Int.

Module Float.

Definition prec : Z := 24.
Definition emax : Z := 128.

(** A binary32 value. *)
Definition float : Type := spec_float.

Definition div (x y : float) : float := SFdiv prec emax x y.
Definition mul (x y : float) : float := SFmul prec emax x y.

(** [m * 2^e] rounded to binary32, for writing constants. *)
Definition of_scaled (m e : Z) : float := binary_normalize prec emax m e false.

(** The conversion [int -> float] of the usual arithmetic conversions. *)
Definition of_int (z : Z) : float := of_scaled z 0.

Definition is_finite (x : float) : bool :=
  match x with
  | S754_zero _ | S754_finite _ _ _ => true
  | S754_infinity _ | S754_nan => false
  end.

Definition is_zero (x : float) : bool :=
  match x with
  | S754_zero _ => true
  | _ => false
  end.

(** [m * 2^e] to the nearest integer, halves to the even neighbour. *)
Definition nearest_even (m : positive) (e : Z) : Z :=
  match e with
  | Zneg p =>
      let d := Z.pow_pos 2 p in
      let q := Z.pos m / d in
      let r := Z.pos m mod d in
      match 2 * r ?= d with
      | Lt => q
      | Gt => q + 1
      | Eq => if Z.even q then q else q + 1
      end
  | _ => Z.pos m * 2 ^ e
  end.


(** [cvRound(float)]: the nearest integer in the default rounding mode;
    a value that does not fit [int], an infinity or a NaN gives the
    "integer indefinite" value [INT_MIN] of the conversion instruction. *)
Definition cvRound (x : float) : Z :=
  match x with
  | S754_zero _ => 0
  | S754_finite s m e =>
      let n := cond_Zopp s (nearest_even m e) in
      if Int.in_range n then n else Int.INT_MIN
  | S754_infinity _ | S754_nan => Int.INT_MIN
  end.


(** Distance between two finite values of the same sign and exponent, in
    units of the last place; [None] when they are not comparable so. *)
Definition ulps_apart (x y : float) : option Z :=
  match x, y with
  | S754_finite sx mx ex, S754_finite sy my ey =>
      if Bool.eqb sx sy && (ex =? ey) then Some (Z.abs (Z.pos mx - Z.pos my))
      else None
  | _, _ => None
  end.

End Float.

Definition float : Type := Float.float.

(** ** Geometry of the library *)

Record Point : Type := mkPoint { px : Z; py : Z }.

(** [Rect]: top-left corner, width and height; [Rect()] is all zeros. *)
Record Rect : Type := mkRect { x : Z; y : Z; width : Z; height : Z }.

Definition Rect_default : Rect := mkRect 0 0 0 0.

Definition tl (r : Rect) : Point := mkPoint (x r) (y r).
Definition br (r : Rect) : Point :=
  mkPoint (Int.add (x r) (width r)) (Int.add (y r) (height r)).

(** The product that the selection loop compares, in [int]. *)
Definition area (r : Rect) : Z := Int.mul (width r) (height r).

Record Vec3 (A : Type) : Type := mkVec3 { c0 : A; c1 : A; c2 : A }.
Arguments mkVec3 {A} _ _ _.
Arguments c0 {A} _.
Arguments c1 {A} _.
Arguments c2 {A} _.

Definition Vec3f : Type := Vec3 float.
Definition Vec3i : Type := Vec3 Z.

(** [Vec3i c = circles[i]] goes through the converting operator of the
    library's [Vec], which applies [saturate_cast<int>] to every component;
    on a [float] that is [cvRound]. *)
Definition Vec3i_of_Vec3f (v : Vec3f) : Vec3i :=
  mkVec3 (Float.cvRound (c0 v)) (Float.cvRound (c1 v)) (Float.cvRound (c2 v)).

Definition Contour : Type := list Point.

Record Scalar : Type := mkScalar { s0 : Z; s1 : Z; s2 : Z }.

(** [CV_RGB(r, g, b)] stores blue first. *)
Definition CV_RGB (r g b : Z) : Scalar := mkScalar b g r.

(** ** Images as terms over the library's operators

    Each constructor is one library call that writes an image; its
    arguments are the arguments of the call.  Nothing is assumed about
    what an operator computes, so two terms are equal only when the same
    operators were applied in the same order to the same source. *)

Inductive ColorConversion : Type := COLOR_RGB2HSV | COLOR_RGB2GRAY.
Inductive ThresholdType : Type := THRESH_BINARY | THRESH_TOZERO.
Inductive LineType : Type := LINE_8 | LINE_AA.
Inductive Font : Type := FONT_HERSHEY_COMPLEX_SMALL.
Inductive HoughMode : Type := HOUGH_GRADIENT.
Inductive RetrievalMode : Type := RETR_TREE.
Inductive ApproximationMode : Type := CHAIN_APPROX_SIMPLE.

Inductive Mat : Type :=
| imread (filename : string)
| GaussianBlur (src : Mat) (ksize : Z * Z) (sigmaX sigmaY : Z)
| cvtColor (src : Mat) (code : ColorConversion)
| plane (src : Mat) (i : nat)
| threshold (src : Mat) (thresh maxval : Z) (type : ThresholdType)
| Canny (image : Mat) (threshold1 threshold2 : Z)
| circle (img : Mat) (center : Point) (radius : Z) (color : Scalar)
         (thickness : Z) (lineType : LineType)
| rectangle (img : Mat) (pt1 pt2 : Point) (color : Scalar) (thickness : Z)
| putText (img : Mat) (text : string) (org : Point) (fontFace : Font)
          (fontScale : Z) (color : Scalar) (thickness : Z)
| noMat.

(** [split(m, mv)] fills [mv] with the three planes of [m]. *)
Definition split (m : Mat) : list Mat := [plane m 0; plane m 1; plane m 2].

(** The shapes stroked on an image, oldest first. *)
Fixpoint circles_drawn (m : Mat) : list (Point * Z) :=
  match m with
  | circle img center radius _ _ _ => circles_drawn img ++ [(center, radius)]
  | rectangle img _ _ _ _ => circles_drawn img
  | putText img _ _ _ _ _ _ => circles_drawn img
  | _ => []
  end.

Fixpoint rectangles_drawn (m : Mat) : list (Point * Point) :=
  match m with
  | rectangle img pt1 pt2 _ _ => rectangles_drawn img ++ [(pt1, pt2)]
  | circle img _ _ _ _ _ => rectangles_drawn img
  | putText img _ _ _ _ _ _ => rectangles_drawn img
  | _ => []
  end.

(** The image under the strokes. *)
Fixpoint canvas (m : Mat) : Mat :=
  match m with
  | circle img _ _ _ _ _ => canvas img
  | rectangle img _ _ _ _ => canvas img
  | putText img _ _ _ _ _ _ => canvas img
  | _ => m
  end.

(** ** The detectors, as an interface *)

(** The arguments of [HoughCircles] after the image and the output. *)
Record HoughArgs : Type := mkHoughArgs {
  method : HoughMode;
  dp : Q;
  minDist : Q;
  param1 : Q;
  param2 : Q;
  minRadius : Z;
  maxRadius : Z
}.

Record Library : Type := mkLibrary {
  rows : Mat -> Z;
  findContours : Mat -> RetrievalMode -> ApproximationMode -> list Contour;
  approxPolyDP : Contour -> Z -> bool -> Contour;
  boundingRect : Contour -> Rect;
  HoughCircles : Mat -> HoughArgs -> list Vec3f
}.

(** ** Console and windows *)

Inductive Token : Type :=
| Str (s : string)
| Int_ (n : Z)
| Flt (v : float)
| endl.

Inductive Event : Type :=
| imshow (winname : string) (m : Mat)
| waitKey (delay : Z)
| cout (t : Token).

Definition nl : string := String (ascii_of_nat 10) EmptyString.

(** ** [main] *)

Definition Toonie_RADIUS : float := S754_finite false 11114906 (-23).

Definition color : Scalar := mkScalar 0 128 0.

(** The call [HoughCircles(gray, circles, HOUGH_GRADIENT, 1.5, 50, 150, 40, 0, 30)]. *)
Definition hough_args : HoughArgs :=
  mkHoughArgs HOUGH_GRADIENT (3 # 2) 50 150 40 0 30.

(** Everything [main] has computed when it returns. *)
Record Run : Type := mkRun {
  bottomTestImage : Mat;
  hsv : Mat;
  cannyHSV : Mat;
  gray : Mat;
  contours : list Contour;
  boundRect : list Rect;
  footRect : Rect;
  circles : list Vec3f;
  TooniePixelRadius : Z;
  pixels_per_metric : float;
  events : list Event;
  exit_code : Z
}.

Section Program.

Variable lib : Library.

(** One turn of the contour loop: the polygon, its box, and the update
    of [footRect] under a strict comparison of the two products. *)
Definition foot_step (acc : list Rect * Rect) (c : Contour) : list Rect * Rect :=
  let '(boxes, best) := acc in
  let poly := approxPolyDP lib c 3 true in
  let box := boundingRect lib poly in
  (boxes ++ [box], if area box >? area best then box else best).

Definition foot_loop (cs : list Contour) : list Rect * Rect :=
  fold_left foot_step cs ([], Rect_default).

(** One turn of the circle loop: the converted circle, the update of
    [TooniePixelRadius] under a strict comparison, and the stroke. *)
Definition coin_step (acc : Z * Mat) (v : Vec3f) : Z * Mat :=
  let '(best, img) := acc in
  let c := Vec3i_of_Vec3f v in
  let center := mkPoint (c0 c) (c1 c) in
  let radius := c2 c in
  (if radius >? best then radius else best,
   circle img center radius color 2 LINE_AA).

Definition coin_loop (img : Mat) (vs : list Vec3f) : Z * Mat :=
  fold_left coin_step vs (0, img).

(** The skin mask of lines 43 to 47, from the image read to [hsv]. *)
Definition skin_mask (img : Mat) : Mat * Mat :=
  let img := GaussianBlur img (3, 3) 0 0 in
  let hsv := cvtColor img COLOR_RGB2HSV in
  let chann := split hsv in
  let hsv := nth 1 chann noMat in
  let hsv := threshold hsv 45 255 THRESH_TOZERO in
  (img, hsv).

Definition main : Run :=
  let bottomTestImage := imread "soleTestWithReference.png" in
  let '(bottomTestImage, hsv) := skin_mask bottomTestImage in
  let cannyHSV := Canny hsv 150 225 in
  let contours := findContours lib cannyHSV RETR_TREE CHAIN_APPROX_SIMPLE in
  let '(boundRect, footRect) := foot_loop contours in
  let gray := cvtColor bottomTestImage COLOR_RGB2GRAY in
  let gray := GaussianBlur gray (3, 3) 0 0 in
  let circles := HoughCircles lib gray hough_args in
  let '(TooniePixelRadius, bottomTestImage) := coin_loop bottomTestImage circles in
  let pixels_per_metric := Float.div Toonie_RADIUS (Float.of_int TooniePixelRadius) in
  let bottomTestImage := rectangle bottomTestImage (tl footRect) (br footRect) color 2 in
  let hsv := putText hsv "HSV-Filtered Image"
               (mkPoint 10 (Int.div (rows lib hsv) 10))
               FONT_HERSHEY_COMPLEX_SMALL 1 (CV_RGB 255 255 255) 2 in
  let cannyHSV := putText cannyHSV "Canny Edge Detection"
                    (mkPoint 10 (Int.div (rows lib hsv) 10))
                    FONT_HERSHEY_COMPLEX_SMALL 1 (CV_RGB 255 255 255) 2 in
  let bottomTestImage := putText bottomTestImage "Detected Foot + Toonie Contours"
                           (mkPoint 10 (Int.div (rows lib hsv) 10))
                           FONT_HERSHEY_COMPLEX_SMALL 1 (CV_RGB 0 0 0) 2 in
  let events :=
    [ imshow "ImageOutput" hsv; waitKey 6000;
      imshow "ImageOutput" cannyHSV; waitKey 4000;
      imshow "ImageOutput" bottomTestImage; waitKey 4000;
      cout (Str ("Toonie MEASUREMENT OUTPUTS " ++ nl));
      cout (Str ("********************************** " ++ nl));
      cout (Str "Radius in image (pixels) "); cout (Int_ TooniePixelRadius); cout endl;
      cout (Str "Radius in real-life (known constant) - "); cout (Flt Toonie_RADIUS); cout endl;
      cout (Str "Centimetres-Per-Pixel - "); cout (Flt pixels_per_metric); cout endl;
      cout (Str (nl ++ "FOOT MEASUREMENT OUTPUTS " ++ nl));
      cout (Str ("********************************** " ++ nl));
      cout (Str "Foot Length (pixels) - "); cout (Int_ (height footRect)); cout endl;
      cout (Str "Foot Length (cm) - ");
      cout (Flt (Float.mul (Float.of_int (height footRect)) pixels_per_metric)); cout endl;
      cout (Str "Foot Width (pixels) - "); cout (Int_ (width footRect)); cout endl;
      cout (Str "Foot Width(cm) - ");
      cout (Flt (Float.mul (Float.of_int (width footRect)) pixels_per_metric)); cout endl;
      waitKey 0 ] in
  mkRun bottomTestImage hsv cannyHSV gray contours boundRect footRect circles
        TooniePixelRadius pixels_per_metric events 0.

End Program.

(** ** Reading a run *)

(** The tokens written to the console, in order. *)
Fixpoint console (es : list Event) : list Token :=
  match es with
  | [] => []
  | cout t :: es' => t :: console es'
  | _ :: es' => console es'
  end.

(** The token written right after the text [label]. *)
Fixpoint printed_after (label : string) (ts : list Token) : option Token :=
  match ts with
  | [] => None
  | Str s :: rest =>
      if String.eqb s label
      then match rest with t :: _ => Some t | [] => None end
      else printed_after label rest
  | _ :: rest => printed_after label rest
  end.

Definition report (r : Run) (label : string) : option Token :=
  printed_after label (console (events r)).

(** The box and the radius that the loops read off one detection. *)
Definition box_of (lib : Library) (c : Contour) : Rect :=
  boundingRect lib (approxPolyDP lib c 3 true).

Definition radius_of (v : Vec3f) : Z := c2 (Vec3i_of_Vec3f v).

Definition center_of (v : Vec3f) : Point :=
  mkPoint (c0 (Vec3i_of_Vec3f v)) (c1 (Vec3i_of_Vec3f v)).

(** ** A scan that keeps the first maximum *)

(** The update of both loops: the newcomer replaces the best so far only
    when its key is strictly greater. *)
Definition keep {A : Type} (key : A -> Z) (best a : A) : A :=
  if key a >? key best then a else best.

Definition scan {A : Type} (key : A -> Z) (l : list A) (init : A) : A :=
  fold_left (keep key) l init.

(** The strokes that the circle loop leaves on the image. *)
Definition stroke (img : Mat) (v : Vec3f) : Mat :=
  circle img (center_of v) (radius_of v) color 2 LINE_AA.

(** [main] with its loops replaced by the scans. *)
Definition blurred : Mat := GaussianBlur (imread "soleTestWithReference.png") (3, 3) 0 0.

Definition mask : Mat :=
  threshold (plane (cvtColor blurred COLOR_RGB2HSV) 1) 45 255 THRESH_TOZERO.

Definition grey : Mat := GaussianBlur (cvtColor blurred COLOR_RGB2GRAY) (3, 3) 0 0.

(** ** Scenes: library instances that answer with given detections *)

Definition outline (b : Rect) : Contour :=
  [ mkPoint (x b) (y b);
    mkPoint (x b + width b - 1) (y b);
    mkPoint (x b + width b - 1) (y b + height b - 1);
    mkPoint (x b) (y b + height b - 1) ].

(** The upright box of a point set: both extreme columns and rows count. *)
Definition bounding_box (c : Contour) : Rect :=
  match c with
  | [] => Rect_default
  | p :: ps =>
      let x0 := fold_left Z.min (map px ps) (px p) in
      let x1 := fold_left Z.max (map px ps) (px p) in
      let y0 := fold_left Z.min (map py ps) (py p) in
      let y1 := fold_left Z.max (map py ps) (py p) in
      mkRect x0 y0 (x1 - x0 + 1) (y1 - y0 + 1)
  end.

Definition scene (boxes : list Rect) (found : list Vec3f) : Library :=
  mkLibrary (fun _ => 480)
            (fun _ _ _ => map outline boxes)
            (fun c _ _ => c)
            bounding_box
            (fun _ _ => found).

Definition circle_at (cx cy : Z) (radius_m radius_e : Z) : Vec3f :=
  mkVec3 (Float.of_int cx) (Float.of_int cy) (Float.of_scaled radius_m radius_e).

(** The order of the specification: conversion first, then the blur. *)
Definition skin_mask_convert_then_blur (img : Mat) : Mat :=
  threshold
    (plane (GaussianBlur (cvtColor img COLOR_RGB2HSV) (3, 3) 0 0) 1)
    45 255 THRESH_TOZERO.


(** ** Positions between two neighbours

    Where the fraction [rho / D], in [0, 1), lies with respect to one half;
    the rounding of [SpecFloat] reads this off its round and sticky bits. *)
Definition loc_of (rho D : Z) : location :=
  if rho =? 0 then loc_Exact else loc_Inexact (2 * rho ?= D).

(** ** Distances to exact values *)


(** [nearest_integer n m e]: [n] is the integer nearest to [m * 2^e], the
    even one of the two when [m * 2^e] lies half way. *)
Definition nearest_integer (n : Z) (m : positive) (e : Z) : Prop :=
  match e with
  | Zneg p =>
      2 * Z.abs (n * 2 ^ Z.pos p - Z.pos m) <= 2 ^ Z.pos p /\
      (2 * Z.abs (n * 2 ^ Z.pos p - Z.pos m) = 2 ^ Z.pos p -> Z.even n = true)
  | _ => n = Z.pos m * 2 ^ e
  end.

(** [times_close n v k num den]: [v] is a positive finite [float] and the
    exact product [v * k] is at most [n / den] away from [num / den]. *)
Definition times_close (n : Z) (v : float) (k num den : Z) : Prop :=
  match v with
  | S754_finite false m e =>
      -200 <= e /\
      Z.abs (Z.pos m * 2 ^ (e + 200) * k * den - num * 2 ^ 200) <= n * 2 ^ 200
  | _ => False
  end.

(** * Properties *)

(** ** Properties of the scan *)

Section Scan.

Variable A : Type.
Variable key : A -> Z.

Lemma scan_app : forall l1 l2 init,
  scan key (l1 ++ l2) init = scan key l2 (scan key l1 init).
Proof. intros; unfold scan; apply fold_left_app. Qed.

Lemma scan_ge_init : forall l init, key init <= key (scan key l init).
Proof.
  unfold scan; induction l as [|a l IH]; intros init; simpl; [lia|].
  specialize (IH (keep key init a)). unfold keep in *.
  destruct (key a >? key init) eqn:E; [apply Z.gtb_lt in E|]; lia.
Qed.

Lemma scan_upper : forall l init a, In a l -> key a <= key (scan key l init).
Proof.
  unfold scan; induction l as [|b l IH]; intros init a H; simpl in *; [easy|].
  destruct H as [->|H]; [|now apply IH].
  pose proof (scan_ge_init l (keep key init a)) as G. unfold scan, keep in *.
  destruct (key a >? key init) eqn:E; [lia|].
  assert (key a <= key init) by (rewrite Z.gtb_ltb in E; apply Z.ltb_ge in E; lia).
  lia.
Qed.

(** Either nothing beat [init], or the result sits at an index [k] of the
    list, and everything before [k] (and [init]) is strictly smaller. *)
Lemma scan_first : forall l init,
  (scan key l init = init /\ forall a, In a l -> key a <= key init) \/
  (exists k, nth_error l k = Some (scan key l init) /\
             key init < key (scan key l init) /\
             forall j a, (j < k)%nat -> nth_error l j = Some a ->
                         key a < key (scan key l init)).
Proof.
  induction l as [|a l IH] using rev_ind; intros init.
  - left; split; [reflexivity|intros ? []].
  - rewrite scan_app.
    replace (scan key [a] (scan key l init)) with (keep key (scan key l init) a) by reflexivity.
    unfold keep.
    destruct (key a >? key (scan key l init)) eqn:E.
    + apply Z.gtb_lt in E. right. exists (List.length l). repeat split.
      * rewrite nth_error_app2, Nat.sub_diag by lia. reflexivity.
      * pose proof (scan_ge_init l init). lia.
      * intros j b Hj Hb. rewrite nth_error_app1 in Hb by lia.
        apply nth_error_In in Hb. pose proof (scan_upper l init b Hb). lia.
    + assert (key a <= key (scan key l init))
        by (rewrite Z.gtb_ltb in E; apply Z.ltb_ge in E; lia).
      destruct (IH init) as [[Heq Hall]|[k (Hk & Hlt & Hbefore)]].
      * left. split; [assumption|]. intros b Hb.
        apply in_app_or in Hb. destruct Hb as [Hb|[<-|[]]]; [auto|].
        rewrite <- Heq; assumption.
      * right. exists k.
        assert (k < List.length l)%nat
          by (apply nth_error_Some; rewrite Hk; discriminate).
        repeat split; try assumption.
        -- rewrite nth_error_app1; assumption.
        -- intros j b Hj Hb. apply (Hbefore j b Hj).
           rewrite nth_error_app1 in Hb by lia. assumption.
Qed.

End Scan.

(** ** The two loops as scans *)

Lemma foot_loop_fold : forall lib cs boxes best,
  fold_left (foot_step lib) cs (boxes, best) =
  (boxes ++ map (box_of lib) cs, scan area (map (box_of lib) cs) best).
Proof.
  intros lib; induction cs as [|c cs IH]; intros boxes best; simpl.
  - now rewrite app_nil_r.
  - rewrite IH, <- app_assoc. reflexivity.
Qed.

Lemma foot_loop_scan : forall lib cs,
  foot_loop lib cs =
  (map (box_of lib) cs, scan area (map (box_of lib) cs) Rect_default).
Proof. intros; unfold foot_loop; now rewrite foot_loop_fold. Qed.

Lemma coin_loop_fold : forall vs best img,
  fold_left coin_step vs (best, img) =
  (scan (fun z => z) (map radius_of vs) best, fold_left stroke vs img).
Proof.
  induction vs as [|v vs IH]; intros best img; simpl; [reflexivity|].
  rewrite IH. reflexivity.
Qed.

Lemma coin_loop_scan : forall img vs,
  coin_loop img vs =
  (scan (fun z => z) (map radius_of vs) 0, fold_left stroke vs img).
Proof. intros; apply coin_loop_fold. Qed.

(** The fields of a run, in terms of what the library returned. *)
Lemma main_footRect : forall lib,
  boundRect (main lib) = map (box_of lib) (contours (main lib)) /\
  footRect (main lib) = scan area (boundRect (main lib)) Rect_default.
Proof.
  intros lib. unfold main, skin_mask. cbn zeta. cbv beta iota.
  rewrite foot_loop_scan, coin_loop_scan. cbn. split; reflexivity.
Qed.

Lemma main_TooniePixelRadius : forall lib,
  TooniePixelRadius (main lib) =
  scan (fun z => z) (map radius_of (circles (main lib))) 0.
Proof.
  intros lib. unfold main, skin_mask. cbn zeta. cbv beta iota.
  rewrite foot_loop_scan, coin_loop_scan. reflexivity.
Qed.

Lemma main_fields : forall lib,
  let r := main lib in
  contours r = findContours lib (Canny mask 150 225) RETR_TREE CHAIN_APPROX_SIMPLE /\
  circles r = HoughCircles lib grey hough_args /\
  gray r = grey /\
  pixels_per_metric r = Float.div Toonie_RADIUS (Float.of_int (TooniePixelRadius r)) /\
  exit_code r = 0.
Proof.
  intros lib r. subst r. unfold main, skin_mask. cbn zeta. cbv beta iota.
  rewrite foot_loop_scan, coin_loop_scan. cbn. repeat split; reflexivity.
Qed.

Lemma main_console : forall lib,
  let r := main lib in
  console (events r) =
  [ Str ("Toonie MEASUREMENT OUTPUTS " ++ nl);
    Str ("********************************** " ++ nl);
    Str "Radius in image (pixels) "; Int_ (TooniePixelRadius r); endl;
    Str "Radius in real-life (known constant) - "; Flt Toonie_RADIUS; endl;
    Str "Centimetres-Per-Pixel - "; Flt (pixels_per_metric r); endl;
    Str (nl ++ "FOOT MEASUREMENT OUTPUTS " ++ nl);
    Str ("********************************** " ++ nl);
    Str "Foot Length (pixels) - "; Int_ (height (footRect r)); endl;
    Str "Foot Length (cm) - ";
    Flt (Float.mul (Float.of_int (height (footRect r))) (pixels_per_metric r)); endl;
    Str "Foot Width (pixels) - "; Int_ (width (footRect r)); endl;
    Str "Foot Width(cm) - ";
    Flt (Float.mul (Float.of_int (width (footRect r))) (pixels_per_metric r)); endl ].
Proof.
  intros lib r. subst r. unfold main, skin_mask. cbn zeta. cbv beta iota.
  rewrite foot_loop_scan, coin_loop_scan. reflexivity.
Qed.

(** What the six measurement lines of the console carry. *)
Lemma main_report : forall lib,
  let r := main lib in
  report r "Radius in image (pixels) " = Some (Int_ (TooniePixelRadius r)) /\
  report r "Centimetres-Per-Pixel - " = Some (Flt (pixels_per_metric r)) /\
  report r "Foot Length (pixels) - " = Some (Int_ (height (footRect r))) /\
  report r "Foot Length (cm) - " =
    Some (Flt (Float.mul (Float.of_int (height (footRect r))) (pixels_per_metric r))) /\
  report r "Foot Width (pixels) - " = Some (Int_ (width (footRect r))) /\
  report r "Foot Width(cm) - " =
    Some (Flt (Float.mul (Float.of_int (width (footRect r))) (pixels_per_metric r))).
Proof.
  intros lib r. subst r. unfold report.
  pose proof (main_console lib) as H. cbv zeta in H. rewrite H.
  repeat split; reflexivity.
Qed.

(** A scan over values that never beat [init] returns [init]. *)
Lemma scan_none : forall (A : Type) (key : A -> Z) l init,
  (forall a, In a l -> key a <= key init) -> scan key l init = init.
Proof.
  intros A key; induction l as [|a l IH]; intros init H; [reflexivity|].
  cbn [scan fold_left]. unfold keep at 2.
  assert (key a <= key init) by (apply H; now left).
  destruct (key a >? key init) eqn:E; [apply Z.gtb_lt in E; lia|].
  apply IH. intros b Hb. apply H. now right.
Qed.


(** ** The foot rectangle *)

(** The [int] product is the true product as long as it fits. *)
Lemma area_exact : forall b,
  Int.in_range (width b * height b) = true -> area b = width b * height b.
Proof.
  intros b H. unfold area, Int.mul, Int.wrap.
  unfold Int.in_range, Int.INT_MIN, Int.INT_MAX in H.
  apply andb_true_iff in H. destruct H as [H1 H2].
  apply Z.leb_le in H1. apply Z.leb_le in H2.
  rewrite Z.mod_small; lia.
Qed.

(** C2. Whenever some contour has a bounding rectangle of positive area,
    the selected foot rectangle is the bounding rectangle of the polygon of
    a contour, at an index [k] of the scan; every rectangle before [k] has
    a strictly smaller area and no rectangle after [k] has a larger one:
    the first rectangle of maximum area.  The area is the [int] product of
    width and height that the loop compares, the true product when it
    fits [int]. *)
Theorem footRect_first_maximum : forall lib,
  let r := main lib in
  (exists b, In b (boundRect r) /\ 0 < area b) ->
  boundRect r = map (box_of lib) (contours r) /\
  exists k,
    nth_error (boundRect r) k = Some (footRect r) /\
    (forall j b, (j < k)%nat -> nth_error (boundRect r) j = Some b ->
                 area b < area (footRect r)) /\
    (forall j b, (k < j)%nat -> nth_error (boundRect r) j = Some b ->
                 area b <= area (footRect r)) /\
    (Int.in_range (width (footRect r) * height (footRect r)) = true ->
     area (footRect r) = width (footRect r) * height (footRect r)).
Proof.
  intros lib r [b [Hb Hpos]]. subst r.
  destruct (main_footRect lib) as [Hboxes Hfoot].
  split; [assumption|].
  destruct (scan_first Rect area (boundRect (main lib)) Rect_default)
    as [[_ Hall]|[k (Hk & _ & Hbefore)]].
  - specialize (Hall b Hb). change (area Rect_default) with 0 in Hall. lia.
  - exists k. rewrite Hfoot. split; [assumption|]. split; [assumption|]. split.
    + intros j c _ Hc. apply scan_upper. now apply nth_error_In in Hc.
    + apply area_exact.
Qed.

Lemma footRect_first_maximum_witness :
  let lib := scene [mkRect 5 5 10 20; mkRect 40 40 30 20; mkRect 0 0 20 30] [] in
  footRect (main lib) = mkRect 40 40 30 20 /\
  boundRect (main lib) = map (box_of lib) (contours (main lib)) /\
  exists k,
    nth_error (boundRect (main lib)) k = Some (footRect (main lib)) /\
    (forall j b, (j < k)%nat -> nth_error (boundRect (main lib)) j = Some b ->
                 area b < area (footRect (main lib))) /\
    (forall j b, (k < j)%nat -> nth_error (boundRect (main lib)) j = Some b ->
                 area b <= area (footRect (main lib))) /\
    (Int.in_range (width (footRect (main lib)) * height (footRect (main lib))) = true ->
     area (footRect (main lib)) = width (footRect (main lib)) * height (footRect (main lib))).
Proof.
  intros lib. split; [reflexivity|].
  apply (footRect_first_maximum lib).
  exists (mkRect 5 5 10 20). split; [left; reflexivity|reflexivity].
Defined.

(** ** The coin radius *)



(** ** No circle *)

(** C4. When the transform returns no circle, the pixel radius is still
    the initial zero, the scale is the known radius divided by zero, which
    is plus infinity and not finite, that value is what the console line of
    the scale carries, and [main] returns zero like any other run. *)
Theorem no_circle_gives_infinite_scale : forall lib,
  let r := main lib in
  circles r = [] ->
  TooniePixelRadius r = 0 /\
  pixels_per_metric r = Float.div Toonie_RADIUS (Float.of_int 0) /\
  pixels_per_metric r = S754_infinity false /\
  Float.is_finite (pixels_per_metric r) = false /\
  report r "Centimetres-Per-Pixel - " = Some (Flt (S754_infinity false)) /\
  exit_code r = 0.
Proof.
  intros lib r Hnone.
  assert (HT : TooniePixelRadius r = 0).
  { subst r. rewrite main_TooniePixelRadius, Hnone. reflexivity. }
  destruct (main_fields lib) as (_ & _ & _ & Hppm & Hexit).
  destruct (main_report lib) as (_ & Hs & _).
  fold r in Hppm, Hexit, Hs. rewrite HT in Hppm.
  change (Float.div Toonie_RADIUS (Float.of_int 0)) with (S754_infinity false) in *.
  rewrite Hppm in *. repeat split; try assumption; reflexivity.
Qed.

Lemma no_circle_gives_infinite_scale_witness :
  let r := main (scene [mkRect 20 30 100 260] []) in
  TooniePixelRadius r = 0 /\
  pixels_per_metric r = Float.div Toonie_RADIUS (Float.of_int 0) /\
  pixels_per_metric r = S754_infinity false /\
  Float.is_finite (pixels_per_metric r) = false /\
  report r "Centimetres-Per-Pixel - " = Some (Flt (S754_infinity false)) /\
  exit_code r = 0.
Proof.
  apply (no_circle_gives_infinite_scale (scene [mkRect 20 30 100 260] [])).
  reflexivity.
Defined.

(** ** The configuration of the circle transform *)

(** C6, as stated: a positive minimum radius.  The minimum radius that
    [main] passes is zero, so the statement fails. *)
Lemma hough_minimum_radius_not_positive :
  ~ (0 < minRadius hough_args /\ (0 < minDist hough_args)%Q).
Proof. intros [H _]. vm_compute in H. discriminate. Qed.

(** C6, amended. [main] runs the transform once, on the blurred grey
    image, with no lower bound on the radius (minimum radius zero), an
    upper bound of thirty pixels, and a fixed minimum distance of fifty
    pixels between centres. *)
Theorem hough_configuration : forall lib,
  circles (main lib) = HoughCircles lib grey hough_args /\
  minRadius hough_args = 0 /\
  maxRadius hough_args = 30 /\
  (minDist hough_args == 50)%Q /\
  (0 < minDist hough_args)%Q.
Proof.
  intros lib. destruct (main_fields lib) as (_ & Hc & _).
  repeat split; try assumption; reflexivity.
Qed.

(** ** The skin mask *)

(** C7, as stated: the mask of the program is not the one obtained by
    converting first and blurring second. *)
Lemma skin_mask_is_not_convert_then_blur :
  snd (skin_mask (imread "soleTestWithReference.png")) <>
  skin_mask_convert_then_blur (imread "soleTestWithReference.png").
Proof. cbv. discriminate. Qed.

(** C7, amended. The stage blurs the colour image first, in place, then
    converts the blurred image to hue, saturation and value, takes plane 1
    (the saturation), and applies the to-zero threshold at 45; the result
    is the mask that the edge detector reads and that the first window
    shows under its caption. *)
Theorem skin_mask_order : forall lib img,
  skin_mask img =
    (GaussianBlur img (3, 3) 0 0,
     threshold
       (plane (cvtColor (GaussianBlur img (3, 3) 0 0) COLOR_RGB2HSV) 1)
       45 255 THRESH_TOZERO) /\
  canvas (hsv (main lib)) = snd (skin_mask (imread "soleTestWithReference.png")) /\
  contours (main lib) =
    findContours lib (Canny (snd (skin_mask (imread "soleTestWithReference.png"))) 150 225)
                 RETR_TREE CHAIN_APPROX_SIMPLE.
Proof.
  intros lib img. split; [reflexivity|]. split.
  - unfold main, skin_mask. cbn zeta. cbv beta iota.
    rewrite foot_loop_scan, coin_loop_scan. reflexivity.
  - destruct (main_fields lib) as (Hc & _). exact Hc.
Qed.

(** ** What is drawn *)

Lemma circles_drawn_strokes : forall vs img,
  circles_drawn (fold_left stroke vs img) =
  circles_drawn img ++ map (fun v => (center_of v, radius_of v)) vs.
Proof.
  induction vs as [|v vs IH]; intros img; cbn [fold_left map].
  - now rewrite app_nil_r.
  - rewrite IH. cbn [stroke circles_drawn]. now rewrite <- app_assoc.
Qed.

Lemma rectangles_drawn_strokes : forall vs img,
  rectangles_drawn (fold_left stroke vs img) = rectangles_drawn img.
Proof.
  induction vs as [|v vs IH]; intros img; cbn [fold_left]; [reflexivity|].
  rewrite IH. reflexivity.
Qed.

Lemma canvas_strokes : forall vs img,
  canvas (fold_left stroke vs img) = canvas img.
Proof.
  induction vs as [|v vs IH]; intros img; cbn [fold_left]; [reflexivity|].
  rewrite IH. reflexivity.
Qed.

(** C8, as stated: only the largest circle is drawn.  With two circles
    found, both are on the final image. *)
Lemma every_found_circle_is_drawn :
  let lib := scene [mkRect 20 30 100 260]
                   [circle_at 400 60 10 0; circle_at 90 300 20 0] in
  TooniePixelRadius (main lib) = 20 /\
  circles_drawn (bottomTestImage (main lib)) =
    [(mkPoint 400 60, 10); (mkPoint 90 300, 20)] /\
  circles_drawn (bottomTestImage (main lib)) <> [(mkPoint 90 300, 20)].
Proof. cbv zeta. repeat split. discriminate. Qed.

(** C8, amended. On the blurred input image the program strokes every
    circle that the transform returned, in order, each with its converted
    centre and radius, then the foot rectangle from its top-left to its
    bottom-right corner, and nothing else but the caption. *)
Theorem drawn_shapes : forall lib,
  let r := main lib in
  circles_drawn (bottomTestImage r) =
    map (fun v => (center_of v, radius_of v)) (circles r) /\
  rectangles_drawn (bottomTestImage r) = [(tl (footRect r), br (footRect r))] /\
  canvas (bottomTestImage r) = blurred.
Proof.
  intros lib r. subst r. unfold main, skin_mask. cbn zeta. cbv beta iota.
  rewrite foot_loop_scan, coin_loop_scan.
  cbn [bottomTestImage circles footRect circles_drawn rectangles_drawn canvas].
  rewrite circles_drawn_strokes, rectangles_drawn_strokes, canvas_strokes.
  repeat split.
Qed.

(** ** The radius that the loop reads *)


(** ** No contour *)

(** C5, as stated: zero is printed for the foot in centimetres whenever
    no contour is found.  On a scene with no contour and no circle the
    scale is infinite and both products are NaN. *)
Lemma blank_scene_prints_nan :
  let r := main (scene [] []) in
  contours r = [] /\
  report r "Foot Length (cm) - " = Some (Flt S754_nan) /\
  report r "Foot Width(cm) - " = Some (Flt S754_nan) /\
  Float.is_zero S754_nan = false.
Proof. cbv zeta. repeat split. Qed.

(** ** Rounding in binary32

    [SpecFloat] shifts a mantissa right while it keeps a round and a
    sticky bit, then rounds to the nearest even.  The lemmas follow the
    value through these steps, for positive numbers in the normal range,
    and give the usual bound of half a unit of the last place. *)

Lemma digits2_pos_bounds : forall m,
  2 ^ (Z.pos (digits2_pos m) - 1) <= Z.pos m < 2 ^ Z.pos (digits2_pos m).
Proof.
  induction m as [m IH|m IH|]; cbn [digits2_pos].
  - rewrite Pos2Z.inj_succ, (Pos2Z.inj_xI m).
    replace (Z.succ (Z.pos (digits2_pos m)) - 1) with (Z.succ (Z.pos (digits2_pos m) - 1)) by lia.
    rewrite !Z.pow_succ_r by lia. lia.
  - rewrite Pos2Z.inj_succ, (Pos2Z.inj_xO m).
    replace (Z.succ (Z.pos (digits2_pos m)) - 1) with (Z.succ (Z.pos (digits2_pos m) - 1)) by lia.
    rewrite !Z.pow_succ_r by lia. lia.
  - cbn. lia.
Qed.

Lemma digits2_unique : forall m d,
  2 ^ (d - 1) <= Z.pos m < 2 ^ d -> 0 < d -> Z.pos (digits2_pos m) = d.
Proof.
  intros m d H Hd. pose proof (digits2_pos_bounds m) as B.
  set (d' := Z.pos (digits2_pos m)) in *.
  assert (0 < d') by (subst d'; lia). clearbody d'.
  destruct (Z.lt_trichotomy d' d) as [L|[E|G]]; [|assumption|].
  - assert (2 ^ d' <= 2 ^ (d - 1)) by (apply Z.pow_le_mono_r; lia). lia.
  - assert (2 ^ d <= 2 ^ (d' - 1)) by (apply Z.pow_le_mono_r; lia). lia.
Qed.

Lemma shr_record_of_loc_m : forall m l, shr_m (shr_record_of_loc m l) = m.
Proof. intros m [|[| |]]; reflexivity. Qed.

Lemma loc_of_shr_record_of_loc : forall m l,
  loc_of_shr_record (shr_record_of_loc m l) = l.
Proof. intros m [|[| |]]; reflexivity. Qed.

(** One shift halves the mantissa and moves its low bit into the fraction. *)
Lemma shr_1_loc : forall m rho D,
  0 <= m -> 0 <= rho < D ->
  shr_1 (shr_record_of_loc m (loc_of rho D)) =
  shr_record_of_loc (m / 2) (loc_of (m mod 2 * D + rho) (2 * D)).
Proof.
  intros m rho D Hm Hrho.
  pose proof (Z.div_mod m 2 ltac:(lia)) as Hdm.
  pose proof (Z.mod_pos_bound m 2 ltac:(lia)) as Hb.
  assert (Hcases : (m mod 2 = 0 /\ m = 2 * (m / 2)) \/ (m mod 2 = 1 /\ m = 2 * (m / 2) + 1)) by lia.
  set (q := m / 2) in *. set (b := m mod 2) in *. clearbody q b.
  unfold loc_of.
  destruct Hcases as [[-> Hq]|[-> Hq]].
  - replace (0 * D + rho) with rho by lia.
    assert (Hm' : m = 0 \/ exists p, m = Z.pos p~0 /\ q = Z.pos p).
    { destruct m as [|[p|p|]|].
      - left; reflexivity.
      - rewrite (Pos2Z.inj_xI p) in Hq. lia.
      - right. exists p. split; [reflexivity|]. rewrite (Pos2Z.inj_xO p) in Hq. lia.
      - lia.
      - lia. }
    destruct (Z.eqb_spec rho 0) as [->|Hne].
    + destruct Hm' as [->|(p & -> & ->)]; [replace q with 0 by lia|]; reflexivity.
    + replace (2 * rho ?= 2 * D) with Lt by (symmetry; apply Z.compare_lt_iff; lia).
      destruct Hm' as [->|(p & -> & ->)]; [replace q with 0 by lia|];
        destruct (2 * rho ?= D); reflexivity.
  - assert (Hm' : (m = 1 /\ q = 0) \/ exists p, m = Z.pos p~1 /\ q = Z.pos p).
    { destruct m as [|[p|p|]|].
      - lia.
      - right. exists p. split; [reflexivity|]. rewrite (Pos2Z.inj_xI p) in Hq. lia.
      - rewrite (Pos2Z.inj_xO p) in Hq. lia.
      - left. lia.
      - lia. }
    replace (1 * D + rho =? 0) with false by (symmetry; apply Z.eqb_neq; lia).
    destruct (Z.eqb_spec rho 0) as [->|Hne].
    + replace (2 * (1 * D + 0) ?= 2 * D) with Eq by (symmetry; apply Z.compare_eq_iff; lia).
      destruct Hm' as [[-> ->]|(p & -> & ->)]; reflexivity.
    + replace (2 * (1 * D + rho) ?= 2 * D) with Gt by (symmetry; apply Z.compare_gt_iff; lia).
      destruct Hm' as [[-> ->]|(p & -> & ->)]; destruct (2 * rho ?= D); reflexivity.
Qed.

(** [p] shifts divide by [2^p]; the value [m + rho / D] is kept, as
    [(m / 2^p) + rho' / (2^p * D)]. *)
Lemma iter_shr_1_loc : forall p m rho D,
  0 <= m -> 0 <= rho < D ->
  exists rho',
    iter_pos shr_1 p (shr_record_of_loc m (loc_of rho D)) =
      shr_record_of_loc (m / 2 ^ Z.pos p) (loc_of rho' (2 ^ Z.pos p * D)) /\
    0 <= rho' < 2 ^ Z.pos p * D /\
    m / 2 ^ Z.pos p * (2 ^ Z.pos p * D) + rho' = m * D + rho.
Proof.
  assert (Step : forall m rho D, 0 <= m -> 0 <= rho < D ->
            0 <= m / 2 /\ 0 <= m mod 2 * D + rho < 2 * D /\
            m / 2 * (2 * D) + (m mod 2 * D + rho) = m * D + rho).
  { intros m rho D Hm Hrho.
    pose proof (Z.div_mod m 2 ltac:(lia)) as Hdm.
    pose proof (Z.mod_pos_bound m 2 ltac:(lia)) as Hb.
    assert (0 <= m / 2) by (apply Z.div_pos; lia).
    set (q := m / 2) in *. set (b := m mod 2) in *. clearbody q b.
    assert (b = 0 \/ b = 1) as [->| ->] by lia; subst m; repeat split; lia. }
  induction p as [p IH|p IH|]; intros m rho D Hm Hrho.
  - cbn [iter_pos]. rewrite shr_1_loc by assumption.
    destruct (Step m rho D Hm Hrho) as (H0 & H1 & H2).
    destruct (IH _ _ _ H0 H1) as (rho1 & E1 & B1 & V1).
    assert (Hq1 : 0 <= m / 2 / 2 ^ Z.pos p) by (apply Z.div_pos; lia).
    destruct (IH _ _ _ Hq1 B1) as (rho2 & E2 & B2 & V2).
    exists rho2. rewrite E1, E2.
    assert (Hpow : 2 ^ Z.pos p~1 = 2 * 2 ^ Z.pos p * 2 ^ Z.pos p).
    { rewrite (Pos2Z.inj_xI p), Z.add_comm, Z.pow_add_r, Z.pow_1_r by lia.
      replace (2 * Z.pos p) with (Z.pos p + Z.pos p) by lia.
      rewrite Z.pow_add_r by lia. ring. }
    assert (Hpp : 0 < 2 ^ Z.pos p) by (apply Z.pow_pos_nonneg; lia).
    assert (Hdiv : m / 2 / 2 ^ Z.pos p / 2 ^ Z.pos p = m / 2 ^ Z.pos p~1).
    { rewrite !Z.div_div by lia. rewrite Hpow. f_equal. ring. }
    rewrite Hdiv in *.
    replace (2 ^ Z.pos p * (2 ^ Z.pos p * (2 * D))) with (2 ^ Z.pos p~1 * D) in *
      by (rewrite Hpow; ring).
    repeat split; try lia.
  - cbn [iter_pos].
    destruct (IH _ _ _ Hm Hrho) as (rho1 & E1 & B1 & V1).
    assert (Hq1 : 0 <= m / 2 ^ Z.pos p) by (apply Z.div_pos; lia).
    destruct (IH _ _ _ Hq1 B1) as (rho2 & E2 & B2 & V2).
    exists rho2. rewrite E1, E2.
    assert (Hpow : 2 ^ Z.pos p~0 = 2 ^ Z.pos p * 2 ^ Z.pos p).
    { rewrite (Pos2Z.inj_xO p).
      replace (2 * Z.pos p) with (Z.pos p + Z.pos p) by lia.
      rewrite Z.pow_add_r by lia. ring. }
    assert (Hpp : 0 < 2 ^ Z.pos p) by (apply Z.pow_pos_nonneg; lia).
    assert (Hdiv : m / 2 ^ Z.pos p / 2 ^ Z.pos p = m / 2 ^ Z.pos p~0).
    { rewrite !Z.div_div by lia. rewrite Hpow. reflexivity. }
    rewrite Hdiv in *.
    replace (2 ^ Z.pos p * (2 ^ Z.pos p * D)) with (2 ^ Z.pos p~0 * D) in *
      by (rewrite Hpow; ring).
    repeat split; try lia.
  - cbn [iter_pos]. rewrite shr_1_loc by assumption.
    destruct (Step m rho D Hm Hrho) as (H0 & H1 & H2).
    exists (m mod 2 * D + rho). change (2 ^ 1) with 2.
    repeat split; try lia.
Qed.

Lemma round_nearest_even_loc : forall m rho D,
  0 <= rho < D ->
  m <= round_nearest_even m (loc_of rho D) <= m + 1 /\
  Z.abs (2 * D * round_nearest_even m (loc_of rho D) - 2 * (m * D + rho)) <= D.
Proof.
  intros m rho D H. unfold loc_of, round_nearest_even.
  destruct (Z.eqb_spec rho 0) as [->|Hne]; [split; lia|].
  destruct (Z.compare_spec (2 * rho) D); [destruct (Z.even m)|..]; split; lia.
Qed.

Lemma shr_fexp_normal : forall m e rho D d,
  0 <= rho < D -> 24 <= d -> 2 ^ (d - 1) <= m < 2 ^ d -> -149 <= e ->
  exists rho',
    shr_fexp Float.prec Float.emax m e (loc_of rho D) =
      (shr_record_of_loc (m / 2 ^ (d - 24)) (loc_of rho' (2 ^ (d - 24) * D)),
       e + (d - 24)) /\
    0 <= rho' < 2 ^ (d - 24) * D /\
    m / 2 ^ (d - 24) * (2 ^ (d - 24) * D) + rho' = m * D + rho.
Proof.
  intros m e rho D d Hrho Hd Hm He.
  assert (Hpos : 0 < m).
  { assert (0 < 2 ^ (d - 1)) by (apply Z.pow_pos_nonneg; lia). lia. }
  destruct m as [|pm|pm]; try lia.
  unfold shr_fexp, fexp, emin, Float.prec, Float.emax. cbn [Zdigits2].
  rewrite (digits2_unique pm d Hm) by lia.
  rewrite Z.max_l by lia.
  replace (d + e - 24 - e) with (d - 24) by lia.
  destruct (d - 24) as [|k|k] eqn:Ek; try lia.
  - exists rho. cbn [shr]. change (2 ^ 0) with 1.
    rewrite Z.div_1_r, Z.mul_1_l, Z.add_0_r. repeat split; lia.
  - cbn [shr].
    destruct (iter_shr_1_loc k (Z.pos pm) rho D ltac:(lia) Hrho) as (rho' & E & B & V).
    exists rho'. rewrite E. repeat split; lia.
Qed.

(** Rounding a positive mantissa of at least 24 digits in the normal range:
    a 24-digit mantissa comes out, at most half a unit of the last place
    away from the value [(m + rho / D) * 2^e]. *)
Lemma binary_round_aux_normal : forall m e rho D d,
  0 <= rho < D -> 24 <= d -> 2 ^ (d - 1) <= m < 2 ^ d ->
  -149 <= e -> e + (d - 24) + 1 <= 104 ->
  exists M E,
    binary_round_aux Float.prec Float.emax false m e (loc_of rho D) = S754_finite false M E /\
    2 ^ 23 <= Z.pos M < 2 ^ 24 /\
    (E = e + (d - 24) \/ E = e + (d - 24) + 1) /\
    Z.abs (2 * D * (Z.pos M * 2 ^ (E - e)) - 2 * (m * D + rho)) <= D * 2 ^ (E - e).
Proof.
  intros m e rho D d Hrho Hd Hm He Hmax.
  unfold binary_round_aux.
  destruct (shr_fexp_normal m e rho D d Hrho Hd Hm He) as (rho1 & E1 & B1 & V1).
  rewrite E1. rewrite shr_record_of_loc_m, loc_of_shr_record_of_loc.
  set (k := d - 24) in *.
  assert (Hk : 0 < 2 ^ k) by (apply Z.pow_pos_nonneg; lia).
  assert (Hpd : 2 ^ d = 2 ^ 24 * 2 ^ k)
    by (rewrite <- Z.pow_add_r by lia; f_equal; lia).
  assert (Hpd1 : 2 ^ (d - 1) = 2 ^ 23 * 2 ^ k)
    by (rewrite <- Z.pow_add_r by lia; f_equal; lia).
  assert (Hm1 : 2 ^ 23 <= m / 2 ^ k < 2 ^ 24).
  { split.
    - apply Z.div_le_lower_bound; lia.
    - apply Z.div_lt_upper_bound; lia. }
  set (m1 := m / 2 ^ k) in *. set (D1 := 2 ^ k * D) in *.
  destruct (round_nearest_even_loc m1 rho1 D1 B1) as [HM1 HR].
  set (M1 := round_nearest_even m1 (loc_of rho1 D1)) in *. clearbody M1.
  change loc_Exact with (loc_of 0 1).
  assert (Hcase : M1 < 2 ^ 24 \/ M1 = 2 ^ 24) by lia.
  destruct Hcase as [Hlt|Heq].
  - destruct (shr_fexp_normal M1 (e + k) 0 1 24 ltac:(lia) ltac:(lia)
                ltac:(change (24 - 1) with 23; lia) ltac:(lia))
      as (rho2 & E2 & B2 & V2).
    rewrite E2, shr_record_of_loc_m.
    change (2 ^ (24 - 24)) with 1. rewrite Z.div_1_r.
    destruct M1 as [|M|M]; try lia.
    replace (e + k + (24 - 24) <=? Float.emax - Float.prec) with true
      by (symmetry; apply Z.leb_le; unfold Float.emax, Float.prec; lia).
    exists M, (e + k + (24 - 24)). repeat split; try lia.
    replace (e + k + (24 - 24) - e) with k by lia.
    subst D1. clearbody m1 k. lia.
  - subst M1.
    destruct (shr_fexp_normal (2 ^ 24) (e + k) 0 1 25 ltac:(lia) ltac:(lia)
                ltac:(cbn; lia) ltac:(lia))
      as (rho2 & E2 & B2 & V2).
    rewrite E2, shr_record_of_loc_m.
    change (2 ^ 24 / 2 ^ (25 - 24)) with (Z.pos 8388608).
    cbv iota beta.
    replace (e + k + (25 - 24) <=? Float.emax - Float.prec) with true
      by (symmetry; apply Z.leb_le; unfold Float.emax, Float.prec; lia).
    exists 8388608%positive, (e + k + (25 - 24)). repeat split; try lia.
    replace (e + k + (25 - 24) - e) with (Z.succ k) by lia.
    rewrite Z.pow_succ_r by lia.
    subst D1. clearbody m1 k. lia.
Qed.

Lemma Pos_iter_xO : forall k m, Z.pos (Pos.iter xO m k) = Z.pos m * 2 ^ Z.pos k.
Proof.
  induction k as [|k IH] using Pos.peano_ind; intros m.
  - cbn [Pos.iter]. rewrite (Pos2Z.inj_xO m). change (2 ^ 1) with 2. ring.
  - rewrite Pos.iter_succ, (Pos2Z.inj_xO (Pos.iter xO m k)), IH, Pos2Z.inj_succ,
      Z.pow_succ_r by lia. ring.
Qed.

Lemma new_location_loc : forall D r,
  0 < D -> 0 <= r < D -> new_location D r = loc_of r D.
Proof.
  intros D r HD Hr. unfold new_location, new_location_even, new_location_odd, loc_of.
  destruct (Z.even D) eqn:Ev; [reflexivity|].
  destruct (Z.eqb_spec r 0); [reflexivity|]. f_equal.
  assert (Hodd : Z.odd D = true) by (rewrite <- Z.negb_even, Ev; reflexivity).
  apply Z.odd_spec in Hodd. destruct Hodd as [h Hh].
  destruct (Z.compare_spec (2 * r + 1) D); destruct (Z.compare_spec (2 * r) D);
    try reflexivity; lia.
Qed.

(** An [int] in [1, INT_MAX] converts to a positive normal [float]. *)
Lemma of_int_normal : forall R,
  0 < R <= 2147483647 ->
  exists b ey,
    Float.of_int R = S754_finite false b ey /\
    2 ^ 23 <= Z.pos b < 2 ^ 24 /\ -23 <= ey <= 8.
Proof.
  intros R HR. destruct R as [|pr|pr]; try lia.
  unfold Float.of_int, Float.of_scaled, binary_normalize, binary_round.
  pose proof (digits2_pos_bounds pr) as Hd.
  set (d := Z.pos (digits2_pos pr)) in *.
  assert (Hd0 : 0 < d) by (subst d; lia).
  assert (Hd31 : d <= 31).
  { destruct (Z.le_gt_cases d 31) as [|G]; [assumption|].
    assert (2 ^ 31 <= 2 ^ (d - 1)) by (apply Z.pow_le_mono_r; lia).
    change (2 ^ 31) with 2147483648 in *. lia. }
  clearbody d.
  unfold fexp, emin, Float.prec, Float.emax. rewrite Z.max_l by lia.
  unfold shl_align. replace (d + 0 - 24 - 0) with (d - 24) by lia.
  replace (d + 0 - 24) with (d - 24) by lia.
  destruct (d - 24) as [|k|k] eqn:Ek.
  - destruct (binary_round_aux_normal (Z.pos pr) 0 0 1 d) as (M & E & HE & HM & HEx & _);
      try lia.
    change (loc_of 0 1) with loc_Exact in HE. unfold Float.prec, Float.emax in HE. rewrite HE.
    exists M, E. repeat split; lia.
  - destruct (binary_round_aux_normal (Z.pos pr) 0 0 1 d) as (M & E & HE & HM & HEx & _);
      try lia.
    change (loc_of 0 1) with loc_Exact in HE. unfold Float.prec, Float.emax in HE. rewrite HE.
    exists M, E. repeat split; lia.
  - assert (Hk : d + Z.pos k = 24) by lia.
    assert (H24 : 2 ^ 24 = 2 ^ d * 2 ^ Z.pos k)
      by (rewrite <- Z.pow_add_r by lia; f_equal; lia).
    assert (H23 : 2 ^ 23 = 2 ^ (d - 1) * 2 ^ Z.pos k)
      by (rewrite <- Z.pow_add_r by lia; f_equal; lia).
    assert (Hp : 0 < 2 ^ Z.pos k) by (apply Z.pow_pos_nonneg; lia).
    destruct (binary_round_aux_normal (Z.pos (Pos.iter xO pr k)) (Z.neg k) 0 1 24)
      as (M & E & HE & HM & HEx & _); try lia.
    { rewrite Pos_iter_xO. change (24 - 1) with 23. rewrite H23, H24. nia. }
    change (loc_of 0 1) with loc_Exact in HE. unfold Float.prec, Float.emax in HE. rewrite HE.
    exists M, E. repeat split; lia.
Qed.

(** The quotient of the known radius by a positive normal [float] of
    moderate exponent. *)
Lemma div_Toonie_normal : forall b ey,
  2 ^ 23 <= Z.pos b < 2 ^ 24 -> -23 <= ey <= 8 ->
  exists Mq j,
    Float.div Toonie_RADIUS (S754_finite false b ey) =
      S754_finite false Mq (-47 - ey + j) /\
    2 ^ 23 <= Z.pos Mq < 2 ^ 24 /\
    (j = 0 \/ j = 1 \/ j = 2) /\
    Z.abs (2 * Z.pos b * (Z.pos Mq * 2 ^ j) - 2 * (11114906 * 2 ^ 24))
    <= Z.pos b * 2 ^ j.
Proof.
  intros b ey Hb Hey.
  unfold Float.div, SFdiv, Toonie_RADIUS, SFdiv_core_binary. cbn [Zdigits2 xorb].
  rewrite (digits2_unique b 24) by (change (24 - 1) with 23; lia).
  change (Z.pos (digits2_pos 11114906)) with 24.
  unfold fexp, emin, Float.prec, Float.emax. rewrite Z.max_l by lia. rewrite Z.min_l by lia.
  replace (-23 - ey - (24 + -23 - (24 + ey) - 24)) with 24 by lia.
  replace (24 + -23 - (24 + ey) - 24) with (-47 - ey) by lia.
  change (Z.shiftl 11114906 24) with (11114906 * 2 ^ 24).
  pose proof (Z_div_mod (11114906 * 2 ^ 24) (Z.pos b) ltac:(lia)) as Hqr.
  destruct (Z.div_eucl (11114906 * 2 ^ 24) (Z.pos b)) as [q r].
  destruct Hqr as [Hq Hr].
  rewrite new_location_loc by lia.
  change (2 ^ 23) with 8388608 in *. change (2 ^ 24) with 16777216 in *.
  assert (Hq1 : 8388608 <= q) by nia.
  assert (Hq2 : q < 33554432) by nia.
  assert (Hcase : q < 16777216 \/ 16777216 <= q) by lia.
  destruct Hcase as [Hlo|Hhi].
  - destruct (binary_round_aux_normal q (-47 - ey) r (Z.pos b) 24)
      as (M & E & HE & HM & HEx & HB); try lia.
    unfold Float.prec, Float.emax in HE. rewrite HE.
    exists M, (E - (-47 - ey)).
    replace (-47 - ey + (E - (-47 - ey))) with E by lia.
    change (2 ^ 23) with 8388608 in HM. change (2 ^ 24) with 16777216 in HM.
    repeat split; try lia.
  - destruct (binary_round_aux_normal q (-47 - ey) r (Z.pos b) 25)
      as (M & E & HE & HM & HEx & HB); try lia.
    unfold Float.prec, Float.emax in HE. rewrite HE.
    exists M, (E - (-47 - ey)).
    replace (-47 - ey + (E - (-47 - ey))) with E by lia.
    change (2 ^ 23) with 8388608 in HM. change (2 ^ 24) with 16777216 in HM.
    repeat split; try lia.
Qed.

(** The product of two positive normal [float]s of moderate exponents. *)
Lemma mul_normal : forall Mq Eq b ey,
  2 ^ 23 <= Z.pos Mq < 2 ^ 24 -> 2 ^ 23 <= Z.pos b < 2 ^ 24 ->
  -149 <= Eq + ey -> Eq + ey + 25 <= 104 ->
  exists Mp i,
    Float.mul (S754_finite false Mq Eq) (S754_finite false b ey) =
      S754_finite false Mp (Eq + ey + i) /\
    2 ^ 23 <= Z.pos Mp < 2 ^ 24 /\
    (i = 23 \/ i = 24 \/ i = 25) /\
    Z.abs (2 * (Z.pos Mp * 2 ^ i) - 2 * (Z.pos Mq * Z.pos b)) <= 2 ^ i.
Proof.
  intros Mq Eq b ey HMq Hb Hlo Hhi.
  unfold Float.mul, SFmul. cbn [xorb]. rewrite Pos2Z.inj_mul.
  change (2 ^ 23) with 8388608 in *. change (2 ^ 24) with 16777216 in *.
  set (N := Z.pos Mq * Z.pos b).
  assert (HN : 70368744177664 <= N < 281474976710656) by (subst N; nia).
  clearbody N.
  change loc_Exact with (loc_of 0 1).
  assert (Hcase : N < 140737488355328 \/ 140737488355328 <= N) by lia.
  destruct Hcase as [Hs|Hl].
  - destruct (binary_round_aux_normal N (Eq + ey) 0 1 47)
      as (M & E & HE & HM & HEx & HB); try lia.
    rewrite HE.
    exists M, (E - (Eq + ey)).
    replace (Eq + ey + (E - (Eq + ey))) with E by lia.
    change (2 ^ 23) with 8388608 in HM. change (2 ^ 24) with 16777216 in HM.
    repeat split; try lia.
  - destruct (binary_round_aux_normal N (Eq + ey) 0 1 48)
      as (M & E & HE & HM & HEx & HB); try lia.
    rewrite HE.
    exists M, (E - (Eq + ey)).
    replace (Eq + ey + (E - (Eq + ey))) with E by lia.
    change (2 ^ 23) with 8388608 in HM. change (2 ^ 24) with 16777216 in HM.
    repeat split; try lia.
Qed.

(** Dividing the known radius by a radius and multiplying back lands
    within one unit of the last place of the known radius. *)
Lemma Toonie_round_trip : forall R,
  0 < R <= 2147483647 ->
  exists M,
    Float.mul (Float.div Toonie_RADIUS (Float.of_int R)) (Float.of_int R) = S754_finite false M (-23) /\
    Z.abs (Z.pos M - 11114906) <= 1.
Proof.
  intros R HR.
  destruct (of_int_normal R HR) as (b & ey & -> & Hb & Hey).
  destruct (div_Toonie_normal b ey Hb Hey) as (Mq & j & -> & HMq & Hj & HBq).
  destruct (mul_normal Mq (-47 - ey + j) b ey HMq Hb ltac:(lia) ltac:(lia))
    as (Mp & i & -> & HMp & Hi & HBp).
  change (2 ^ 23) with 8388608 in *. change (2 ^ 24) with 16777216 in *.
  set (P := Z.pos Mq * Z.pos b) in *.
  assert (HP : 2 * Z.pos b * (Z.pos Mq * 2 ^ j) = 2 * P * 2 ^ j) by (subst P; ring).
  rewrite HP in HBq. clearbody P. clear HP.
  exists Mp.
  destruct Hj as [-> | [-> | ->]]; destruct Hi as [-> | [-> | ->]];
    cbn [Z.pow Z.pow_pos Pos.iter Z.mul Pos.mul] in HBq, HBp;
    first [ split; [f_equal; lia|lia] | exfalso; lia ].
Qed.

(** ** Exact conversions and the accuracy of the report *)

Lemma binary_round_aux_exact : forall s m e,
  2 ^ 23 <= Z.pos m < 2 ^ 24 -> -149 <= e <= 104 ->
  binary_round_aux Float.prec Float.emax s (Z.pos m) e loc_Exact = S754_finite s m e.
Proof.
  intros s m e Hm He.
  unfold binary_round_aux, shr_fexp, fexp, emin, Float.prec, Float.emax.
  cbn [Zdigits2 shr_record_of_loc].
  rewrite (digits2_unique m 24) by (change (24 - 1) with 23; lia).
  rewrite Z.max_l by lia.
  replace (24 + e - 24 - e) with 0 by lia.
  cbn [shr shr_m loc_of_shr_record round_nearest_even shr_r shr_s Zdigits2].
  rewrite (digits2_unique m 24) by (change (24 - 1) with 23; lia).
  rewrite Z.max_l by lia.
  replace (24 + e - 24 - e) with 0 by lia.
  cbn [shr shr_m shr_record_of_loc].
  replace (e <=? 128 - 24) with true by (symmetry; apply Z.leb_le; lia).
  reflexivity.
Qed.

(** An [int] of magnitude below [2^24] converts to [float] without
    rounding: the mantissa is the magnitude shifted left. *)
Lemma of_int_exact_pos : forall p,
  Z.pos p < 2 ^ 24 ->
  forall s, exists b k,
    binary_round Float.prec Float.emax s p 0 = S754_finite s b (- k) /\
    Z.pos b = Z.pos p * 2 ^ k /\ 0 <= k <= 23 /\ 2 ^ 23 <= Z.pos b < 2 ^ 24.
Proof.
  intros p Hp s. unfold binary_round.
  pose proof (digits2_pos_bounds p) as Hd.
  set (d := Z.pos (digits2_pos p)) in *.
  assert (Hd0 : 0 < d) by (subst d; lia).
  assert (Hd24 : d <= 24).
  { destruct (Z.le_gt_cases d 24) as [|G]; [assumption|].
    assert (2 ^ 24 <= 2 ^ (d - 1)) by (apply Z.pow_le_mono_r; lia). lia. }
  clearbody d.
  unfold fexp, emin, Float.prec, Float.emax. rewrite Z.max_l by lia.
  unfold shl_align. replace (d + 0 - 24 - 0) with (d - 24) by lia.
  destruct (d - 24) as [|k|k] eqn:Ek; try lia.
  - assert (d = 24) by lia. subst d. change (24 - 1) with 23 in Hd.
    pose proof (binary_round_aux_exact s p 0 Hd ltac:(lia)) as HE.
    unfold Float.prec, Float.emax in HE. rewrite HE.
    exists p, 0. change (2 ^ 0) with 1. repeat split; lia.
  - assert (Hk : d + Z.pos k = 24) by lia.
    assert (H24 : 2 ^ 24 = 2 ^ d * 2 ^ Z.pos k)
      by (rewrite <- Z.pow_add_r by lia; f_equal; lia).
    assert (H23 : 2 ^ 23 = 2 ^ (d - 1) * 2 ^ Z.pos k)
      by (rewrite <- Z.pow_add_r by lia; f_equal; lia).
    assert (Hpk : 0 < 2 ^ Z.pos k) by (apply Z.pow_pos_nonneg; lia).
    assert (Hb : 2 ^ 23 <= Z.pos (Pos.iter xO p k) < 2 ^ 24).
    { rewrite Pos_iter_xO, H23, H24. nia. }
    replace (d + 0 - 24) with (Z.neg k) by lia.
    pose proof (binary_round_aux_exact s (Pos.iter xO p k) (Z.neg k) Hb ltac:(lia)) as HE.
    unfold Float.prec, Float.emax in HE. rewrite HE.
    exists (Pos.iter xO p k), (Z.pos k).
    rewrite Pos_iter_xO. repeat split; try lia.
    rewrite <- Pos_iter_xO. lia. rewrite <- Pos_iter_xO. lia.
Qed.

Lemma of_int_exact : forall n,
  0 < n < 2 ^ 24 ->
  exists b k,
    Float.of_int n = S754_finite false b (- k) /\
    Z.pos b = n * 2 ^ k /\ 0 <= k <= 23 /\ 2 ^ 23 <= Z.pos b < 2 ^ 24.
Proof.
  intros n Hn. destruct n as [|p|p]; try lia.
  unfold Float.of_int, Float.of_scaled, binary_normalize.
  apply of_int_exact_pos. lia.
Qed.

Lemma nearest_even_exact : forall b p k,
  Z.pos b = Z.pos p * 2 ^ k -> 0 <= k ->
  Float.nearest_even b (- k) = Z.pos p.
Proof.
  intros b p k Hb Hk. unfold Float.nearest_even.
  destruct k as [|kp|kp]; try lia.
  - cbn [Z.opp]. change (2 ^ 0) with 1 in *. lia.
  - cbn [Z.opp]. rewrite Z.pow_pos_fold.
    assert (Hpk : 0 < 2 ^ Z.pos kp) by (apply Z.pow_pos_nonneg; lia).
    rewrite Hb, Z.div_mul, Z.mod_mul by lia.
    replace (2 * 0 ?= 2 ^ Z.pos kp) with Lt
      by (symmetry; apply Z.compare_lt_iff; lia).
    reflexivity.
Qed.

(** Converting an [int] of magnitude below [2^24] to [float] and back
    gives the same [int]. *)
Lemma int_survives_float : forall n,
  - 2 ^ 24 < n < 2 ^ 24 -> Float.cvRound (Float.of_int n) = n.
Proof.
  intros n Hn. destruct n as [|p|p].
  - reflexivity.
  - unfold Float.of_int, Float.of_scaled, binary_normalize.
    destruct (of_int_exact_pos p ltac:(lia) false) as (b & k & -> & Hb & Hk & _).
    unfold Float.cvRound. rewrite (nearest_even_exact b p k Hb) by lia.
    cbn [cond_Zopp]. unfold Int.in_range, Int.INT_MIN, Int.INT_MAX.
    change (2 ^ 24) with 16777216 in Hn.
    replace ((-2147483648 <=? Z.pos p) && (Z.pos p <=? 2147483647)) with true;
      [reflexivity|].
    symmetry. apply andb_true_iff. split; apply Z.leb_le; lia.
  - unfold Float.of_int, Float.of_scaled, binary_normalize.
    destruct (of_int_exact_pos p ltac:(lia) true) as (b & k & -> & Hb & Hk & _).
    unfold Float.cvRound. rewrite (nearest_even_exact b p k Hb) by lia.
    cbn [cond_Zopp]. unfold Int.in_range, Int.INT_MIN, Int.INT_MAX.
    change (2 ^ 24) with 16777216 in Hn.
    replace ((-2147483648 <=? - Z.pos p) && (- Z.pos p <=? 2147483647)) with true;
      [reflexivity|].
    symmetry. apply andb_true_iff. split; apply Z.leb_le; lia.
Qed.




(** ** The nearest integer *)


Lemma nearest_even_is_nearest_integer : forall m e,
  nearest_integer (Float.nearest_even m e) m e.
Proof.
  intros m [|p|p]; unfold nearest_integer, Float.nearest_even; try reflexivity.
  rewrite Z.pow_pos_fold.
  set (d := 2 ^ Z.pos p) in *.
  assert (Hd : 0 < d) by (subst d; apply Z.pow_pos_nonneg; lia).
  pose proof (Z.div_mod (Z.pos m) d ltac:(lia)) as Hdm.
  pose proof (Z.mod_pos_bound (Z.pos m) d Hd) as Hr.
  set (q := Z.pos m / d) in *. set (r := Z.pos m mod d) in *.
  clearbody q r d.
  destruct (Z.compare_spec (2 * r) d) as [E|E|E].
  - destruct (Z.even q) eqn:Ev; (split; [lia|]); intros _; [assumption|].
    rewrite Z.even_add, Ev. reflexivity.
  - split; lia.
  - split; lia.
Qed.


(** An [int] in [1, INT_MAX] as a [float]: exact below [2^24], at most
    half a unit of the last place away above. *)
Lemma of_int_bound : forall R,
  0 < R <= 2147483647 ->
  exists b ey,
    Float.of_int R = S754_finite false b ey /\
    2 ^ 23 <= Z.pos b < 2 ^ 24 /\
    ((-23 <= ey <= 0 /\ Z.pos b = R * 2 ^ (- ey)) \/
     (0 < ey <= 8 /\ 2 ^ 24 <= R /\
      Z.abs (2 * (Z.pos b * 2 ^ ey) - 2 * R) <= 2 ^ ey)).
Proof.
  intros R HR.
  destruct (Z.lt_ge_cases R (2 ^ 24)) as [Hlt|Hge].
  - destruct (of_int_exact R ltac:(lia)) as (b & k & HE & Hb & Hk & Hb24).
    exists b, (- k). split; [assumption|]. split; [assumption|]. left.
    rewrite Z.opp_involutive. split; [lia|assumption].
  - destruct R as [|pr|pr]; try lia.
    unfold Float.of_int, Float.of_scaled, binary_normalize, binary_round.
    pose proof (digits2_pos_bounds pr) as Hd.
    set (d := Z.pos (digits2_pos pr)) in *.
    assert (Hd25 : 25 <= d).
    { destruct (Z.lt_ge_cases d 25) as [L|]; [|assumption].
      assert (2 ^ d <= 2 ^ 24) by (apply Z.pow_le_mono_r; lia). lia. }
    assert (Hd31 : d <= 31).
    { destruct (Z.le_gt_cases d 31) as [|G]; [assumption|].
      assert (2 ^ 31 <= 2 ^ (d - 1)) by (apply Z.pow_le_mono_r; lia).
      change (2 ^ 31) with 2147483648 in *. lia. }
    clearbody d.
    unfold fexp, emin, Float.prec, Float.emax. rewrite Z.max_l by lia.
    unfold shl_align. replace (d + 0 - 24 - 0) with (d - 24) by lia.
    destruct (d - 24) as [|k|k] eqn:Ek; try lia.
    destruct (binary_round_aux_normal (Z.pos pr) 0 0 1 d)
      as (M & E & HE & HM & HEx & HB); try lia.
    change (loc_of 0 1) with loc_Exact in HE.
    unfold Float.prec, Float.emax in HE. rewrite HE.
    exists M, E. split; [reflexivity|]. split; [assumption|]. right.
    split; [lia|]. split; [assumption|]. rewrite Z.sub_0_r in HB.
    replace (2 * 1 * (Z.pos M * 2 ^ E) - 2 * (Z.pos pr * 1 + 0))
      with (2 * (Z.pos M * 2 ^ E) - 2 * Z.pos pr) in HB by ring.
    lia.
Qed.

Lemma abs_scaled : forall c X B, 0 <= c -> Z.abs X <= B -> Z.abs (c * X) <= c * B.
Proof.
  intros c X B Hc H. rewrite Z.abs_mul, (Z.abs_eq c) by assumption.
  apply Z.mul_le_mono_nonneg_l; assumption.
Qed.

(** The scale times the coin radius, in exact arithmetic, is the known
    radius up to two units of its last place, and up to one when the
    radius is below [2^24]. *)
Lemma scale_times_radius : forall R,
  0 < R <= 2147483647 ->
  times_close 2 (Float.div Toonie_RADIUS (Float.of_int R)) R 11114906 (2 ^ 23) /\
  (R < 2 ^ 24 ->
   times_close 1 (Float.div Toonie_RADIUS (Float.of_int R)) R 11114906 (2 ^ 23)).
Proof.
  intros R HR.
  destruct (of_int_bound R HR) as (b & ey & -> & Hb24 & Hcase).
  assert (Hey : -23 <= ey <= 8) by (destruct Hcase as [[? _]|[? _]]; lia).
  destruct (div_Toonie_normal b ey Hb24 Hey) as (Mq & j & -> & HMq & Hj & HB).
  unfold times_close.
  change (2 ^ 23) with 8388608 in *. change (2 ^ 24) with 16777216 in *.
  assert (HJ : (2 ^ j = 1 \/ 2 ^ j = 2) /\ 0 <= j).
  { destruct Hj as [-> | [-> | ->]];
      [split; [left; reflexivity|lia]|split; [right; reflexivity|lia]|exfalso].
    change (2 ^ 2) with 4 in HB. nia. }
  destruct HJ as [HJ Hj0].
  set (J := 2 ^ j) in *.
  assert (Hq : 2 * Z.abs (Z.pos b * Z.pos Mq * J - 11114906 * 16777216) <= Z.pos b * J).
  { replace (2 * Z.pos b * (Z.pos Mq * J) - 2 * (11114906 * 16777216))
      with (2 * (Z.pos b * Z.pos Mq * J - 11114906 * 16777216)) in HB by ring.
    rewrite Z.abs_mul in HB. exact HB. }
  clear HB.
  destruct Hcase as [[Hey0 Hexact]|(Hey1 & Hbig & Hround)].
  - (* the radius converts exactly *)
    assert (HK : 0 < 2 ^ (- ey)) by (apply Z.pow_pos_nonneg; lia).
    assert (Hpow : 2 ^ (-47 - ey + j + 200) = 2 ^ 153 * 2 ^ (- ey) * J).
    { subst J. rewrite <- !Z.pow_add_r by lia. f_equal. lia. }
    assert (Hone : Z.abs (Z.pos Mq * 2 ^ (-47 - ey + j + 200) * R * 8388608
                          - 11114906 * 2 ^ 200) <= 1 * 2 ^ 200).
    { rewrite Hpow. set (K := 2 ^ (- ey)) in *. clearbody K J.
      replace (Z.pos Mq * (2 ^ 153 * K * J) * R * 8388608 - 11114906 * 2 ^ 200)
        with (2 ^ 176 * (R * K * Z.pos Mq * J - 11114906 * 16777216))
        by (change (2 ^ 176) with (2 ^ 153 * 8388608);
            change (2 ^ 200) with (2 ^ 153 * 8388608 * 16777216); ring).
      replace (1 * 2 ^ 200) with (2 ^ 176 * 16777216) by reflexivity.
      apply abs_scaled; [lia|].
      rewrite <- Hexact. destruct HJ as [HJ|HJ]; rewrite HJ in *; lia. }
    split; [split; [lia|lia]|intros _; split; [lia|exact Hone]].
  - (* the radius was rounded to 24 bits *)
    assert (HU : 0 < 2 ^ ey) by (apply Z.pow_pos_nonneg; lia).
    assert (Hpow : 2 ^ (-47 - ey + j + 200) = 2 ^ (153 - ey) * J).
    { subst J. rewrite <- !Z.pow_add_r by lia. f_equal. lia. }
    assert (HG : 2 ^ 153 = 2 ^ (153 - ey) * 2 ^ ey).
    { rewrite <- Z.pow_add_r by lia. f_equal. lia. }
    assert (HG0 : 0 < 2 ^ (153 - ey)) by (apply Z.pow_pos_nonneg; lia).
    split; [|intros Hlt; lia]. split; [lia|].
    rewrite Hpow.
    change (2 ^ 200) with (2 ^ 153 * 8388608 * 16777216). rewrite HG.
    set (U := 2 ^ ey) in *. set (G := 2 ^ (153 - ey)) in *. clearbody U G J.
    replace (Z.pos Mq * (G * J) * R * 8388608 - 11114906 * (G * U * 8388608 * 16777216))
      with (G * 8388608 * (Z.pos Mq * J * R - 11114906 * 16777216 * U)) by ring.
    replace (2 * (G * U * 8388608 * 16777216))
      with (G * 8388608 * (33554432 * U)) by ring.
    apply abs_scaled; [lia|].
    set (X1 := R - Z.pos b * U).
    set (X2 := Z.pos b * Z.pos Mq * J - 11114906 * 16777216) in *.
    assert (H1 : 2 * Z.abs X1 <= U).
    { subst X1. replace (2 * (Z.pos b * U) - 2 * R) with (- (2 * (R - Z.pos b * U)))
        in Hround by ring.
      rewrite Z.abs_opp, Z.abs_mul in Hround. exact Hround. }
    replace (Z.pos Mq * J * R - 11114906 * 16777216 * U)
      with (Z.pos Mq * J * X1 + U * X2) by (subst X1 X2; ring).
    clearbody X1 X2.
    pose proof (Z.abs_triangle (Z.pos Mq * J * X1) (U * X2)) as Ht.
    assert (Ha : 2 * Z.abs (Z.pos Mq * J * X1) <= Z.pos Mq * J * U).
    { rewrite Z.abs_mul, (Z.abs_eq (Z.pos Mq * J)) by (destruct HJ as [-> | ->]; lia).
      replace (2 * (Z.pos Mq * J * Z.abs X1)) with (Z.pos Mq * J * (2 * Z.abs X1)) by ring.
      apply Z.mul_le_mono_nonneg_l; [destruct HJ as [-> | ->]; lia|assumption]. }
    assert (Hb : 2 * Z.abs (U * X2) <= U * (Z.pos b * J)).
    { rewrite Z.abs_mul, (Z.abs_eq U) by lia.
      replace (2 * (U * Z.abs X2)) with (U * (2 * Z.abs X2)) by ring.
      apply Z.mul_le_mono_nonneg_l; [lia|assumption]. }
    assert (Hc : Z.pos Mq * J * U + U * (Z.pos b * J) <= 2 * (33554432 * U)).
    { replace (Z.pos Mq * J * U + U * (Z.pos b * J)) with (U * (J * (Z.pos Mq + Z.pos b))) by ring.
      replace (2 * (33554432 * U)) with (U * 67108864) by ring.
      apply Z.mul_le_mono_nonneg_l; [lia|]. destruct HJ as [-> | ->]; lia. }
    lia.
Qed.

(** ** The range of the coin radius *)

Lemma cvRound_range : forall v, Int.INT_MIN <= Float.cvRound v <= Int.INT_MAX.
Proof.
  intros [s|s| |s m e]; unfold Float.cvRound, Int.INT_MIN, Int.INT_MAX;
    try lia.
  cbv zeta. unfold Int.in_range, Int.INT_MIN, Int.INT_MAX.
  destruct ((-2147483648 <=? cond_Zopp s (Float.nearest_even m e)) &&
            (cond_Zopp s (Float.nearest_even m e) <=? 2147483647)) eqn:E; [|lia].
  apply andb_true_iff in E. destruct E as [E1 E2].
  apply Z.leb_le in E1. apply Z.leb_le in E2. lia.
Qed.

Lemma TooniePixelRadius_range : forall lib,
  0 <= TooniePixelRadius (main lib) <= Int.INT_MAX.
Proof.
  intros lib. rewrite main_TooniePixelRadius.
  set (radii := map radius_of (circles (main lib))).
  split; [apply (scan_ge_init Z (fun z => z) radii 0)|].
  destruct (scan_first Z (fun z => z) radii 0) as [[-> _]|[k (Hk & _)]].
  - unfold Int.INT_MAX. lia.
  - apply nth_error_In in Hk. subst radii.
    apply in_map_iff in Hk. destruct Hk as (v & <- & _).
    apply cvRound_range.
Qed.

(** With a positive coin radius the scale is a positive normal number. *)
Lemma scale_finite : forall R,
  0 < R <= Int.INT_MAX ->
  exists M E, Float.div Toonie_RADIUS (Float.of_int R) = S754_finite false M E.
Proof.
  intros R HR. unfold Int.INT_MAX in HR.
  destruct (of_int_normal R HR) as (b & ey & -> & Hb & Hey).
  destruct (div_Toonie_normal b ey Hb Hey) as (Mq & j & -> & _).
  eauto.
Qed.

(** ** The round trip *)

(** C9. In every run with a positive coin radius [R], the scale times [R]
    in exact arithmetic is at most two units of the last place of the
    known radius 1.325f = 11114906 / 2^23 away from it, and at most one when
    [R] is below [2^24]; the same product computed in binary32, with [R]
    converted as in the division, is a finite number with the sign and the
    exponent of the known radius and a mantissa at most one unit away. *)
Theorem scale_times_radius_is_known_radius : forall lib,
  let r := main lib in
  let R := TooniePixelRadius r in
  0 < R ->
  times_close 2 (pixels_per_metric r) R 11114906 (2 ^ 23) /\
  (R < 2 ^ 24 -> times_close 1 (pixels_per_metric r) R 11114906 (2 ^ 23)) /\
  pixels_per_metric r = Float.div Toonie_RADIUS (Float.of_int R) /\
  exists u,
    Float.ulps_apart (Float.mul (pixels_per_metric r) (Float.of_int R))
                     Toonie_RADIUS = Some u /\
    u <= 1.
Proof.
  intros lib r R HR.
  destruct (main_fields lib) as (_ & _ & _ & Hppm & _). fold r R in Hppm.
  pose proof (TooniePixelRadius_range lib) as Hrange. fold r R in Hrange.
  unfold Int.INT_MAX in Hrange.
  destruct (scale_times_radius R ltac:(lia)) as [H2 H1].
  rewrite Hppm.
  split; [assumption|]. split; [assumption|]. split; [reflexivity|].
  destruct (Toonie_round_trip R ltac:(lia)) as (M & -> & HM).
  exists (Z.abs (Z.pos M - 11114906)). split; [reflexivity|assumption].
Qed.

Lemma scale_times_radius_is_known_radius_witness :
  let r := main (scene [mkRect 20 30 100 260] [circle_at 400 60 41 0]) in
  times_close 2 (pixels_per_metric r) 41 11114906 (2 ^ 23) /\
  (41 < 2 ^ 24 -> times_close 1 (pixels_per_metric r) 41 11114906 (2 ^ 23)) /\
  pixels_per_metric r = Float.div Toonie_RADIUS (Float.of_int 41) /\
  exists u,
    Float.ulps_apart (Float.mul (pixels_per_metric r) (Float.of_int 41))
                     Toonie_RADIUS = Some u /\
    u <= 1.
Proof.
  apply (scale_times_radius_is_known_radius
           (scene [mkRect 20 30 100 260] [circle_at 400 60 41 0])).
  reflexivity.
Defined.

(** The tolerance is needed: at radius 41 the product is one unit of the
    last place above the known radius; at radius 53 it is the known radius. *)
Example round_trip_at_41 :
  Float.mul (Float.div Toonie_RADIUS (Float.of_int 41)) (Float.of_int 41)
  = S754_finite false 11114907 (-23).
Proof. reflexivity. Qed.

Example round_trip_at_53 :
  Float.mul (Float.div Toonie_RADIUS (Float.of_int 53)) (Float.of_int 53)
  = Toonie_RADIUS.
Proof. reflexivity. Qed.

(** ** No contour, amended *)

(** C5, amended. With no contour the foot rectangle is still [Rect()], of
    area zero, and the console carries 0 for the length and the width in
    pixels; in centimetres it carries zero when a circle of positive
    radius was found, so that the scale is finite, and NaN when no circle
    was found; [main] returns zero in both cases. *)
Theorem no_contour_gives_zero_foot : forall lib,
  let r := main lib in
  contours r = [] ->
  footRect r = Rect_default /\
  area (footRect r) = 0 /\
  report r "Foot Length (pixels) - " = Some (Int_ 0) /\
  report r "Foot Width (pixels) - " = Some (Int_ 0) /\
  (0 < TooniePixelRadius r ->
   report r "Foot Length (cm) - " = Some (Flt (S754_zero false)) /\
   report r "Foot Width(cm) - " = Some (Flt (S754_zero false))) /\
  (circles r = [] ->
   report r "Foot Length (cm) - " = Some (Flt S754_nan) /\
   report r "Foot Width(cm) - " = Some (Flt S754_nan)) /\
  exit_code r = 0.
Proof.
  intros lib r Hnone.
  assert (HF : footRect r = Rect_default).
  { subst r. destruct (main_footRect lib) as [Hb ->]. rewrite Hb, Hnone. reflexivity. }
  destruct (main_report lib) as (_ & _ & Hlp & Hl & Hwp & Hw).
  destruct (main_fields lib) as (_ & _ & _ & Hppm & Hexit).
  fold r in Hlp, Hl, Hwp, Hw, Hppm, Hexit.
  rewrite HF in *. cbn [height width Rect_default] in *.
  change (Float.of_int 0) with (S754_zero false) in *.
  split; [reflexivity|]. split; [reflexivity|].
  split; [assumption|]. split; [assumption|].
  split; [|split; [|assumption]].
  - intros HR. pose proof (TooniePixelRadius_range lib) as Hrange. fold r in Hrange.
    destruct (scale_finite (TooniePixelRadius r) ltac:(lia)) as (M & E & HME).
    rewrite Hl, Hw, Hppm, HME. split; reflexivity.
  - intros Hc. rewrite Hl, Hw, Hppm.
    replace (TooniePixelRadius r) with 0
      by (subst r; rewrite main_TooniePixelRadius, Hc; reflexivity).
    split; reflexivity.
Qed.

Lemma no_contour_gives_zero_foot_witness :
  let r := main (scene [] [circle_at 400 60 53 0]) in
  footRect r = Rect_default /\
  report r "Foot Length (pixels) - " = Some (Int_ 0) /\
  report r "Foot Width (pixels) - " = Some (Int_ 0) /\
  report r "Foot Length (cm) - " = Some (Flt (S754_zero false)) /\
  report r "Foot Width(cm) - " = Some (Flt (S754_zero false)).
Proof.
  destruct (no_contour_gives_zero_foot (scene [] [circle_at 400 60 53 0]) eq_refl)
    as (HF & _ & Hlp & Hwp & Hcm & _ & _).
  destruct (Hcm eq_refl) as [Hl Hw].
  repeat split; assumption.
Defined.

(** ** Scale and foot size *)




(** ** The radius that the loop reads, amended *)



(** * Further properties *)

(** X1. In every run the coin radius lies between 0 and [INT_MAX]; it is 0
    exactly when no circle has a positive radius, and then the scale is
    plus infinity; otherwise the scale is a positive finite number.  The
    scale is never NaN, zero or negative. *)
Theorem scale_finite_iff_coin_found : forall lib,
  let r := main lib in
  0 <= TooniePixelRadius r <= Int.INT_MAX /\
  (TooniePixelRadius r = 0 <-> forall v, In v (circles r) -> radius_of v <= 0) /\
  (TooniePixelRadius r = 0 -> pixels_per_metric r = S754_infinity false) /\
  (0 < TooniePixelRadius r -> exists M E, pixels_per_metric r = S754_finite false M E) /\
  (Float.is_finite (pixels_per_metric r) = true <-> 0 < TooniePixelRadius r).
Proof.
  intros lib r.
  pose proof (TooniePixelRadius_range lib) as Hrange. fold r in Hrange.
  destruct (main_fields lib) as (_ & _ & _ & Hppm & _). fold r in Hppm.
  assert (Hzero : TooniePixelRadius r = 0 -> pixels_per_metric r = S754_infinity false).
  { intros H0. rewrite Hppm, H0. reflexivity. }
  assert (Hpos : 0 < TooniePixelRadius r ->
                 exists M E, pixels_per_metric r = S754_finite false M E).
  { intros H0. rewrite Hppm. apply scale_finite. lia. }
  split; [assumption|]. split; [|split; [assumption|split; [assumption|]]].
  - subst r. rewrite main_TooniePixelRadius.
    set (radii := map radius_of (circles (main lib))). split.
    + intros H0 v Hv.
      assert (Hin : In (radius_of v) radii) by (apply in_map; exact Hv).
      pose proof (scan_upper Z (fun z => z) radii 0 (radius_of v) Hin) as Hle.
      cbv beta in Hle. lia.
    + intros Hall. apply (scan_none Z (fun z => z)). intros a Ha.
      subst radii. apply in_map_iff in Ha. destruct Ha as (v & <- & Hv). auto.
  - split.
    + intros Hfin.
      destruct (Z.eq_dec (TooniePixelRadius r) 0) as [E|NE]; [|lia].
      rewrite (Hzero E) in Hfin. discriminate.
    + intros H0. destruct (Hpos H0) as (M & E & ->). reflexivity.
Qed.

(** The key of a scan is the maximum of the keys. *)
Lemma scan_key_max : forall (A : Type) (key : A -> Z) l init,
  key (scan key l init) = fold_left Z.max (map key l) (key init).
Proof.
  intros A key; induction l as [|a l IH]; intros init; [reflexivity|].
  cbn [map fold_left]. change (scan key (a :: l) init) with (scan key l (keep key init a)).
  rewrite IH. f_equal. unfold keep.
  destruct (key a >? key init) eqn:E.
  - apply Z.gtb_lt in E. lia.
  - rewrite Z.gtb_ltb in E. apply Z.ltb_ge in E. lia.
Qed.

Lemma fold_max_permutation : forall l l',
  Permutation l l' -> forall z, fold_left Z.max l z = fold_left Z.max l' z.
Proof.
  induction 1 as [|a l l' _ IH|a b l|l l' l'' _ IH1 _ IH2]; intros z; cbn [fold_left].
  - reflexivity.
  - apply IH.
  - f_equal. lia.
  - rewrite IH1. apply IH2.
Qed.

(** X3. The order in which the transform lists its circles changes
    neither the coin radius nor the scale. *)
Theorem coin_radius_ignores_order : forall lib lib',
  Permutation (circles (main lib)) (circles (main lib')) ->
  TooniePixelRadius (main lib) = TooniePixelRadius (main lib') /\
  pixels_per_metric (main lib) = pixels_per_metric (main lib').
Proof.
  intros lib lib' HP.
  assert (HT : TooniePixelRadius (main lib) = TooniePixelRadius (main lib')).
  { rewrite !main_TooniePixelRadius.
    pose proof (scan_key_max Z (fun z => z)) as Hmax. cbv beta in Hmax.
    rewrite !Hmax. apply fold_max_permutation.
    do 2 apply Permutation_map. assumption. }
  split; [assumption|].
  destruct (main_fields lib) as (_ & _ & _ & -> & _).
  destruct (main_fields lib') as (_ & _ & _ & -> & _).
  now rewrite HT.
Qed.

Lemma coin_radius_ignores_order_witness :
  let a := circle_at 30 40 12 0 in
  let b := circle_at 200 90 25 0 in
  TooniePixelRadius (main (scene [] [a; b])) = TooniePixelRadius (main (scene [] [b; a])) /\
  pixels_per_metric (main (scene [] [a; b])) = pixels_per_metric (main (scene [] [b; a])).
Proof.
  intros a b. apply (coin_radius_ignores_order (scene [] [a; b]) (scene [] [b; a])).
  apply perm_swap.
Defined.

(** X4. The order of the bounding rectangles does not change the area of
    the foot rectangle; among rectangles of equal area it decides which
    one is kept. *)
Theorem foot_area_ignores_order : forall lib lib',
  Permutation (boundRect (main lib)) (boundRect (main lib')) ->
  area (footRect (main lib)) = area (footRect (main lib')).
Proof.
  intros lib lib' HP.
  destruct (main_footRect lib) as [_ ->]. destruct (main_footRect lib') as [_ ->].
  rewrite !scan_key_max. apply fold_max_permutation. now apply Permutation_map.
Qed.

Lemma foot_area_ignores_order_witness :
  let a := mkRect 5 5 10 60 in
  let b := mkRect 40 40 30 20 in
  footRect (main (scene [a; b] [])) = a /\
  footRect (main (scene [b; a] [])) = b /\
  area (footRect (main (scene [a; b] []))) = area (footRect (main (scene [b; a] []))).
Proof.
  intros a b. split; [reflexivity|]. split; [reflexivity|].
  apply (foot_area_ignores_order (scene [a; b] []) (scene [b; a] [])).
  apply perm_swap.
Defined.

(** X2. In every run the foot rectangle is [Rect()] or one of the bounding
    rectangles; it is [Rect()] exactly when no bounding rectangle has a
    positive area; its area is never negative and no bounding rectangle
    has a larger one. *)
Theorem footRect_is_default_or_a_box : forall lib,
  let r := main lib in
  (footRect r = Rect_default \/ In (footRect r) (boundRect r)) /\
  (footRect r = Rect_default <-> forall b, In b (boundRect r) -> area b <= 0) /\
  0 <= area (footRect r) /\
  (forall b, In b (boundRect r) -> area b <= area (footRect r)).
Proof.
  intros lib r. subst r. destruct (main_footRect lib) as [_ Hf]. rewrite Hf.
  set (boxes := boundRect (main lib)).
  pose proof (scan_ge_init Rect area boxes Rect_default) as Hge.
  change (area Rect_default) with 0 in Hge.
  destruct (scan_first Rect area boxes Rect_default)
    as [[Heq Hall]|[k (Hk & Hlt & _)]].
  - change (area Rect_default) with 0 in Hall.
    split; [left; assumption|]. split; [tauto|]. split; [assumption|].
    intros b Hb. apply scan_upper. assumption.
  - change (area Rect_default) with 0 in Hlt.
    split; [right; eapply nth_error_In; eassumption|]. split; [|split; [assumption|]].
    + split.
      * intros E. rewrite E in Hlt. change (area Rect_default) with 0 in Hlt. lia.
      * intros Hall. apply nth_error_In in Hk. specialize (Hall _ Hk). lia.
    + intros b Hb. apply scan_upper. assumption.
Qed.





(** X7. A circle whose centre and radius are integers of magnitude below
    [2^24], held as [float]s, is read back by the loop without change; the
    conversion of such a radius to [float] for the division is exact. *)
Theorem integer_circle_is_read_back : forall cx cy n,
  - 2 ^ 24 < cx < 2 ^ 24 -> - 2 ^ 24 < cy < 2 ^ 24 -> - 2 ^ 24 < n < 2 ^ 24 ->
  Vec3i_of_Vec3f (mkVec3 (Float.of_int cx) (Float.of_int cy) (Float.of_int n))
  = mkVec3 cx cy n /\
  Float.cvRound (Float.of_int n) = n.
Proof.
  intros cx cy n Hx Hy Hn. unfold Vec3i_of_Vec3f. cbn [c0 c1 c2].
  rewrite !int_survives_float by assumption. split; reflexivity.
Qed.

Lemma integer_circle_is_read_back_witness :
  Vec3i_of_Vec3f (mkVec3 (Float.of_int 400) (Float.of_int 60) (Float.of_int 53))
  = mkVec3 400 60 53 /\
  Float.cvRound (Float.of_int 53) = 53.
Proof.
  apply (integer_circle_is_read_back 400 60 53); split; reflexivity.
Defined.

(** X8. The bounding rectangles, the foot rectangle and the two pixel
    lines of the report depend on the contours only: two runs that differ
    in the circles found agree on them. *)
Theorem foot_ignores_circles : forall lib lib',
  findContours lib (Canny mask 150 225) RETR_TREE CHAIN_APPROX_SIMPLE =
  findContours lib' (Canny mask 150 225) RETR_TREE CHAIN_APPROX_SIMPLE ->
  (forall c, box_of lib c = box_of lib' c) ->
  boundRect (main lib) = boundRect (main lib') /\
  footRect (main lib) = footRect (main lib') /\
  report (main lib) "Foot Length (pixels) - " = report (main lib') "Foot Length (pixels) - " /\
  report (main lib) "Foot Width (pixels) - " = report (main lib') "Foot Width (pixels) - ".
Proof.
  intros lib lib' Hc Hbox.
  destruct (main_fields lib) as (Hc1 & _). destruct (main_fields lib') as (Hc2 & _).
  destruct (main_footRect lib) as [Hb1 Hf1]. destruct (main_footRect lib') as [Hb2 Hf2].
  assert (HB : boundRect (main lib) = boundRect (main lib')).
  { rewrite Hb1, Hb2, Hc1, Hc2, Hc. apply map_ext. assumption. }
  assert (HF : footRect (main lib) = footRect (main lib'))
    by (rewrite Hf1, Hf2, HB; reflexivity).
  destruct (main_report lib) as (_ & _ & Hl1 & _ & Hw1 & _).
  destruct (main_report lib') as (_ & _ & Hl2 & _ & Hw2 & _).
  rewrite Hl1, Hl2, Hw1, Hw2, HF. repeat split; try assumption; reflexivity.
Qed.

Lemma foot_ignores_circles_witness :
  let boxes := [mkRect 20 30 100 260] in
  footRect (main (scene boxes [])) = footRect (main (scene boxes [circle_at 400 60 53 0])).
Proof.
  intros boxes.
  apply (foot_ignores_circles (scene boxes []) (scene boxes [circle_at 400 60 53 0]));
    reflexivity.
Defined.

(** The annotated image: the strokes of the circle loop on the blurred
    input, then the rectangle, then the caption. *)
Lemma main_bottomTestImage : forall lib,
  let r := main lib in
  exists org,
    bottomTestImage r =
    putText
      (rectangle (fold_left stroke (circles r) blurred)
                 (tl (footRect r)) (br (footRect r)) color 2)
      "Detected Foot + Toonie Contours" org
      FONT_HERSHEY_COMPLEX_SMALL 1 (CV_RGB 0 0 0) 2.
Proof.
  intros lib r. subst r. unfold main, skin_mask. cbn zeta. cbv beta iota.
  rewrite foot_loop_scan, coin_loop_scan. eexists. reflexivity.
Qed.

(** X9. The circles, the coin radius and the scale depend on the circle
    transform only: two runs that differ in the contours found agree on
    them. *)
Theorem scale_ignores_contours : forall lib lib',
  HoughCircles lib grey hough_args = HoughCircles lib' grey hough_args ->
  circles (main lib) = circles (main lib') /\
  TooniePixelRadius (main lib) = TooniePixelRadius (main lib') /\
  pixels_per_metric (main lib) = pixels_per_metric (main lib') /\
  report (main lib) "Centimetres-Per-Pixel - " = report (main lib') "Centimetres-Per-Pixel - ".
Proof.
  intros lib lib' Hh.
  destruct (main_fields lib) as (_ & Hc1 & _ & Hp1 & _).
  destruct (main_fields lib') as (_ & Hc2 & _ & Hp2 & _).
  assert (HC : circles (main lib) = circles (main lib')) by (rewrite Hc1, Hc2; exact Hh).
  assert (HT : TooniePixelRadius (main lib) = TooniePixelRadius (main lib'))
    by (rewrite !main_TooniePixelRadius, HC; reflexivity).
  assert (HP : pixels_per_metric (main lib) = pixels_per_metric (main lib'))
    by (rewrite Hp1, Hp2, HT; reflexivity).
  destruct (main_report lib) as (_ & Hs1 & _). destruct (main_report lib') as (_ & Hs2 & _).
  rewrite Hs1, Hs2, HP. repeat split; assumption.
Qed.

Lemma scale_ignores_contours_witness :
  let found := [circle_at 400 60 53 0] in
  pixels_per_metric (main (scene [] found)) =
  pixels_per_metric (main (scene [mkRect 20 30 100 260] found)).
Proof.
  intros found.
  apply (scale_ignores_contours (scene [] found) (scene [mkRect 20 30 100 260] found)).
  reflexivity.
Defined.

(** X12. With no contour, a rectangle is still drawn, from the origin to
    the origin; with no circle, no circle is drawn. *)
Theorem nothing_found_still_draws : forall lib,
  let r := main lib in
  contours r = [] ->
  rectangles_drawn (bottomTestImage r) = [(mkPoint 0 0, mkPoint 0 0)] /\
  (circles r = [] -> circles_drawn (bottomTestImage r) = []).
Proof.
  intros lib r Hnone.
  destruct (main_bottomTestImage lib) as (org & Hb). fold r in Hb.
  assert (HF : footRect r = Rect_default).
  { subst r. destruct (main_footRect lib) as [Hbx ->]. rewrite Hbx, Hnone. reflexivity. }
  rewrite Hb, HF. cbn [rectangles_drawn circles_drawn].
  rewrite rectangles_drawn_strokes, circles_drawn_strokes. split; [reflexivity|].
  intros ->. reflexivity.
Qed.

Lemma nothing_found_still_draws_witness :
  let r := main (scene [] []) in
  rectangles_drawn (bottomTestImage r) = [(mkPoint 0 0, mkPoint 0 0)] /\
  (circles r = [] -> circles_drawn (bottomTestImage r) = []).
Proof.
  apply (nothing_found_still_draws (scene [] [])). reflexivity.
Defined.
